(** * Rail nodes of YAPF: segment keys, cached segments and search nodes

    A shallow embedding of [src/pathfinder/yapf/yapf_node_rail.hpp]:
    - [CYapfRailSegmentKey], the packed key of a cached segment;
    - [CYapfRailSegment], the cached segment itself, chained in a hash
      table through [m_hash_next];
    - [CYapfRailNodeT], the search node with its rail annotations.

    Objects that the C++ code reaches through pointers live in stores
    (lists addressed by index); a pointer is an index and [NULL] is [None]. *)

From Stdlib Require Import ZArith Lia Bool.
From stdpp Require Import base option list gmap relations strings.

(** ** Machine integers

    Fixed-width integers are values of [Z]; every conversion between widths
    or signedness is written out. *)

Definition uint32_of (z : Z) : Z := (z mod 2 ^ 32)%Z.

(** Conversion to [int32]: the value with the same low 32 bits in
    [-2^31, 2^31). *)
Definition int32_of (z : Z) : Z := ((z + 2 ^ 31) mod 2 ^ 32 - 2 ^ 31)%Z.

Definition is_uint32 (z : Z) : Prop := (0 ≤ z < 2 ^ 32)%Z.

Definition is_int32 (z : Z) : Prop := (- 2 ^ 31 ≤ z < 2 ^ 31)%Z.

(** ** Positions

    [PathPos] is used by the rail node file through its members [tile]
    (a [TileIndex]) and [td] (a [Trackdir]); both are kept as the integer
    they hold. *)

Record PathPos : Type := mkPathPos {
  tile : Z;
  td : Z
}.

(** Modelled from the spec: [CYapfNodeKeyTrackDir::CalcHash] is declared
    outside the rail node file.  In track-direction mode the hash of a node
    key is the position packed as [(tile_index << 4) | trackdir]. *)
Definition CYapfNodeKeyTrackDir_CalcHash (pos : PathPos) : Z :=
  Z.lor (Z.shiftl (tile pos) 4) (td pos).

(** ** [CYapfRailSegmentKey] *)

Record CYapfRailSegmentKey : Type := mkKey {
  m_value : Z  (* uint32 *)
}.

(** Copy constructor: [m_value(src.m_value)]. *)
Definition CYapfRailSegmentKey_copy (src : CYapfRailSegmentKey) : CYapfRailSegmentKey :=
  {| m_value := m_value src |}.

(** [Set(const CYapfRailSegmentKey& src)]. *)
Definition CYapfRailSegmentKey_Set_key
    (src : CYapfRailSegmentKey) (this : CYapfRailSegmentKey) : CYapfRailSegmentKey :=
  {| m_value := m_value src |}.

(** [Set(const CYapfNodeKeyTrackDir& node_key)]: [m_value = node_key.CalcHash()].
    The argument is the value returned by [node_key.CalcHash()]; storing it
    into the [uint32] member converts it modulo [2^32]. *)
Definition CYapfRailSegmentKey_Set_node_key
    (node_key_hash : Z) (this : CYapfRailSegmentKey) : CYapfRailSegmentKey :=
  {| m_value := uint32_of node_key_hash |}.

(** Constructor from a node key: it only calls [Set(node_key)]. *)
Definition CYapfRailSegmentKey_of_node_key (node_key_hash : Z) : CYapfRailSegmentKey :=
  CYapfRailSegmentKey_Set_node_key node_key_hash {| m_value := 0 |}.

(** The segment key of a position in track-direction mode. *)
Definition CYapfRailSegmentKey_of_pos (pos : PathPos) : CYapfRailSegmentKey :=
  CYapfRailSegmentKey_of_node_key (CYapfNodeKeyTrackDir_CalcHash pos).

(** [int32 CalcHash() const { return m_value; }]: the [uint32] member is
    returned as an [int32]. *)
Definition CalcHash (k : CYapfRailSegmentKey) : Z := int32_of (m_value k).

(** [operator ==]. *)
Definition CYapfRailSegmentKey_eq (k other : CYapfRailSegmentKey) : bool :=
  (m_value k =? m_value other)%Z.

(** The two values written by [Dump]: [m_value >> 4] and [m_value & 0x0F]. *)
Definition Dump_tile (k : CYapfRailSegmentKey) : Z := Z.shiftr (m_value k) 4.

Definition Dump_td (k : CYapfRailSegmentKey) : Z := Z.land (m_value k) 15.

(** Every key that the constructors build holds a [uint32]. *)
Definition key_wf (k : CYapfRailSegmentKey) : Prop := is_uint32 (m_value k).

(** ** The bit-fields of [flags_u]

    [flags_u] is a union of the word [m_inherited_flags] with three one-bit
    fields, laid out from the least significant bit: [m_targed_seen],
    [m_choice_seen], [m_last_signal_was_red]. *)

Definition m_targed_seen (flags : Z) : bool := Z.testbit flags 0.

Definition m_choice_seen (flags : Z) : bool := Z.testbit flags 1.

Definition m_last_signal_was_red (flags : Z) : bool := Z.testbit flags 2.

(** Storing a [bool] into the one-bit field at position [i]. *)
Definition write_bit (i : Z) (b : bool) (flags : Z) : Z :=
  if b then Z.setbit flags i else Z.clearbit flags i.

Definition set_m_choice_seen (b : bool) (flags : Z) : Z := write_bit 1 b flags.


(** Modelled from the spec: the declaration of [EndSegmentReasonBits] is
    outside the rail node file.  It is a bitset of the reasons why a segment
    ended, and [ESRB_NONE] is the empty one. *)
Definition ESRB_NONE : Z := 0.

(** What a call can do besides returning a value. *)
Inductive outcome (A : Type) : Type :=
| Returns (a : A)
| AssertionFailure
| InvalidPointer.

Arguments Returns {A} a.
Arguments AssertionFailure {A}.
Arguments InvalidPointer {A}.

(** ** The text file window ([textfile.cpp])

    A text buffer is a list of [char] values, each kept as the value of its
    byte (0 to 255); a pointer into the buffer is an index, and the buffer
    seen from a pointer [p] is [drop p text]. *)

Definition char_NUL : Z := 0.
Definition char_TAB : Z := 9.
Definition char_LF : Z := 10.
Definition char_CR : Z := 13.
Definition char_SPACE : Z := 32.

(** The C string that starts at the head of [s]: the characters before the
    first [NUL]. *)
Fixpoint cstr (s : list Z) : list Z :=
  match s with
  | [] => []
  | c :: s' => if (c =? char_NUL)%Z then [] else c :: cstr s'
  end.

(** [strchr(s, c)], as the offset of the result from [s]; [None] is [NULL]. *)
Fixpoint strchr (s : list Z) (c : Z) : option nat :=
  match s with
  | [] => None
  | b :: s' =>
      if (b =? c)%Z then Some 0
      else if (b =? char_NUL)%Z then None
      else S <$> strchr s' c
  end.

(** The loop of the constructor of [TextfileWindow] that replaces tabs and
    carriage returns by spaces, on the buffer seen from the pointer of the
    loop: it stops at the first [NUL] and writes a space over every tab and
    every carriage return before it. *)
Fixpoint replace_tabs (s : list Z) : list Z :=
  match s with
  | [] => []
  | c :: s' =>
      if (c =? char_NUL)%Z then s
      else (if (c =? char_TAB)%Z || (c =? char_CR)%Z then char_SPACE else c)
             :: replace_tabs s'
  end.

(** [strncmp(s1, s2, n) == 0]: the first [n] characters are compared one by
    one, up to the first difference or the first [NUL]. *)
Fixpoint strncmp_eq (s1 s2 : list Z) (n : nat) : bool :=
  match n with
  | O => true
  | S n' =>
      match s1, s2 with
      | a :: s1', b :: s2' =>
          if (a =? b)%Z then (if (a =? char_NUL)%Z then true else strncmp_eq s1' s2' n')
          else false
      | _, _ => false
      end
  end.

(** The byte-order-mark, as the string literal of the source holds it. *)
Definition utf8_bom : list Z := [239; 187; 191; char_NUL]%Z.

(** The check for the byte-order-mark: [p] moves on by 3 when [strncmp]
    finds the byte-order-mark at [p].  The result is the new [p]. *)
Definition skip_bom (text : list Z) (p : nat) : nat :=
  if strncmp_eq utf8_bom (drop p text) 3 then p + 3 else p.

(** The loop of the constructor of [TextfileWindow] that splits the text on
    newlines.  [lines] holds pointers into the buffer; [filesize] is the
    index of the terminating [NUL] that the constructor wrote.  The loop
    runs for at most [fuel] rounds; [None] means that it ran out of fuel. *)
Fixpoint split_lines_loop (fuel : nat) (filesize : nat) (text : list Z) (p : nat)
    (lines : list nat) : option (list Z * list nat) :=
  match fuel with
  | O => None
  | S fuel' =>
      (* lines.push_back (p) *)
      let lines := lines ++ [p] in
      (* p = strchr (p, LF); if (p == NULL) break *)
      match strchr (drop p text) char_LF with
      | None => Some (text, lines)
      | Some d =>
          (* the newline is overwritten with NUL and p moves behind it *)
          let text := <[p + d := char_NUL]> text in
          let p := S (p + d) in
          (* if (p == text + filesize) break *)
          if p =? filesize then Some (text, lines)
          else split_lines_loop fuel' filesize text p lines
      end
  end.

Definition split_lines (filesize : nat) (text : list Z) (p : nat)
    : option (list Z * list nat) :=
  split_lines_loop (S (length text)) filesize text p [].

(** The text of the line that starts at [a]. *)
Definition line_at (text : list Z) (a : nat) : list Z := cstr (drop a text).

(** Lines put together again, with a newline between two lines. *)
Fixpoint join_lines (ls : list (list Z)) : list Z :=
  match ls with
  | [] => []
  | [l] => l
  | l :: ls' => l ++ char_LF :: join_lines ls'
  end.

(** What the constructor of [TextfileWindow] does with the bytes read from
    the file: a terminating [NUL] is put behind them, tabs and carriage
    returns are replaced, the byte-order-mark is skipped, the text from [p]
    to [text + filesize] is validated in place, and the text is split into
    lines.  [str_validate] is declared outside this file; it takes the
    buffer and the two pointers and gives the buffer it leaves. *)
Definition load_lines (str_validate : list Z → nat → nat → list Z)
    (content : list Z) : option (list Z * list nat) :=
  let filesize := length content in
  let text := content ++ [char_NUL] in
  let text := replace_tabs text in
  let p := skip_bom text 0 in
  let text := str_validate text p filesize in
  split_lines filesize text p.

(** [TextfileWindow::GlyphSearcher]: three iterators into the vector of
    lines, kept as indices. *)
Record GlyphSearcher : Type := mkGlyphSearcher {
  gs_begin : nat;
  gs_end : nat;
  gs_iter : nat
}.

(** [GlyphSearcher::Reset()]. *)
Definition Reset (gs : GlyphSearcher) : GlyphSearcher :=
  {| gs_begin := gs_begin gs; gs_end := gs_end gs; gs_iter := gs_begin gs |}.

(** [GlyphSearcher::NextString()]: [NULL] when [iter == end], otherwise the
    line at [iter], and [iter] moves on by one.  [None] is [NULL]. *)
Definition NextString {A : Type} (lines : list A) (gs : GlyphSearcher)
    : outcome (option A) * GlyphSearcher :=
  if gs_iter gs =? gs_end gs then (Returns None, gs)
  else
    (match lines !! gs_iter gs with
     | Some line => Returns (Some line)
     | None => InvalidPointer
     end,
     {| gs_begin := gs_begin gs; gs_end := gs_end gs; gs_iter := S (gs_iter gs) |}).

(** [n] calls of [NextString] in a row, with what they returned. *)
Fixpoint next_strings {A : Type} (n : nat) (lines : list A) (gs : GlyphSearcher)
    : list (outcome (option A)) * GlyphSearcher :=
  match n with
  | O => ([], gs)
  | S n' =>
      let '(r, gs') := NextString lines gs in
      let '(rs, gs'') := next_strings n' lines gs' in
      (r :: rs, gs'')
  end.

(** ** [TextfileDesc]

    File names are lists of characters; [None] is the [NULL] pointer. *)

(** The table [prefixes] of the constructor of [TextfileDesc], indexed by
    the type of the text file. *)
Definition prefixes : list (list Ascii.ascii) :=
  String.list_ascii_of_string <$> ["readme"; "changelog"; "license"].

(** The table [exts] of the constructor; two of its entries depend on the
    build ([WITH_ZLIB], [WITH_LZMA]). *)
Definition exts (with_zlib with_lzma : bool) : list (list Ascii.ascii) :=
  String.list_ascii_of_string
    <$> (["txt"] ++ (if with_zlib then ["txt.gz"] else [])
           ++ (if with_lzma then ["txt.xz"] else [])).

(** [strrchr(s, c)], as the offset of the result from [s]; [None] is [NULL]. *)
Fixpoint strrchr (s : list Ascii.ascii) (c : Ascii.ascii) : option nat :=
  match s with
  | [] => None
  | b :: s' =>
      match strrchr s' c with
      | Some i => Some (S i)
      | None => if Ascii.eqb b c then Some 0 else None
      end
  end.

(** The size of the buffer that the constructor allocates, from the offset
    of the last path separator: the separator, the longest prefix, an
    underscore, the longest language code, and the extension with its dot
    and the terminator. *)
Definition alloc_size (slash : nat) : nat := slash + 1 + 9 + 1 + 7 + 9.

(** What a [stringb] buffer of [capacity] bytes holds after [s] has been
    formatted into it: [stringb] is declared outside this file; it keeps
    what fits before the terminator. *)
Definition stringb_fit (capacity : nat) (s : list Ascii.ascii) : list Ascii.ascii :=
  take (capacity - 1) s.

(** The three file names that the loop of the constructor tries for one
    extension, in its order: with the language code, with the first two
    characters of the language code, and without a language. *)
Definition candidates_of_ext (iso base e : list Ascii.ascii) : list (list Ascii.ascii) :=
  [base ++ String.list_ascii_of_string "_" ++ iso
        ++ String.list_ascii_of_string "." ++ e;
   base ++ String.list_ascii_of_string "_" ++ take 2 iso
        ++ String.list_ascii_of_string "." ++ e;
   base ++ String.list_ascii_of_string "." ++ e].

Definition candidates (iso base : list Ascii.ascii) (es : list (list Ascii.ascii))
    : list (list Ascii.ascii) :=
  es ≫= candidates_of_ext iso base.

(** The loop over [exts] of the constructor: the buffer is cut back to the
    base and a suffix is appended, three times for every extension; the
    first name for which [FioCheckFileExists] holds is the path.  [iso] is
    what [GetCurrentLanguageIsoCode()] returns. *)
Fixpoint try_exts (FioCheckFileExists : list Ascii.ascii → bool) (iso : list Ascii.ascii)
    (capacity : nat) (base : list Ascii.ascii) (es : list (list Ascii.ascii))
    : option (list Ascii.ascii) :=
  match es with
  | [] => None
  | e :: es' =>
      let c1 := stringb_fit capacity
                  (base ++ String.list_ascii_of_string "_" ++ iso
                        ++ String.list_ascii_of_string "." ++ e) in
      if FioCheckFileExists c1 then Some c1 else
      let c2 := stringb_fit capacity
                  (base ++ String.list_ascii_of_string "_" ++ take 2 iso
                        ++ String.list_ascii_of_string "." ++ e) in
      if FioCheckFileExists c2 then Some c2 else
      let c3 := stringb_fit capacity
                  (base ++ String.list_ascii_of_string "." ++ e) in
      if FioCheckFileExists c3 then Some c3 else
      try_exts FioCheckFileExists iso capacity base es'
  end.

(** The member [path] that the constructor
    [TextfileDesc (type, dir, filename)] leaves; [PATHSEPCHAR] is the path
    separator of the platform. *)
Definition TextfileDesc_path (FioCheckFileExists : list Ascii.ascii → bool)
    (iso : list Ascii.ascii) (PATHSEPCHAR : Ascii.ascii) (with_zlib with_lzma : bool)
    (type : nat) (filename : option (list Ascii.ascii))
    : outcome (option (list Ascii.ascii)) :=
  match filename with
  | None => Returns None
  | Some filename =>
      match strrchr filename PATHSEPCHAR with
      | None => Returns None
      | Some slash =>
          let capacity := alloc_size slash in
          match prefixes !! type with
          | None => InvalidPointer
          | Some prefix =>
              let base := stringb_fit capacity (take (slash + 1) filename ++ prefix) in
              Returns (try_exts FioCheckFileExists iso capacity base
                         (exts with_zlib with_lzma))
          end
      end
  end.

Section RailYapf.

(** The position built by the default constructor [PathPos()]. *)
Variable PathPos_default : PathPos.

(** [SignalType] and the two of its values that the rail node names. *)
Context {SignalType : Type} (SIGTYPE_NORMAL SIGTYPE_PBS : SignalType).

(** The base class [CYapfNodeT] and its initialiser [base::Set], which acts
    on the base sub-object of the node it is called on. *)
Context {Base : Type}.
Variable base_Set : option nat → PathPos → bool → Base → Base.

(** How the hash table reduces a hash to the index of a slot. *)
Variable slot_of : Z → Z.

(** ** [CYapfRailSegment] *)

Record CYapfRailSegment : Type := mkSegment {
  m_key : CYapfRailSegmentKey;
  m_last : PathPos;
  m_cost : Z;
  m_last_signal : PathPos;
  m_end_segment_reason : Z;
  m_hash_next : option nat  (* CYapfRailSegment * *)
}.

(** The constructor [CYapfRailSegment(const CYapfRailSegmentKey& key)]. *)
Definition CYapfRailSegment_new (key : CYapfRailSegmentKey) : CYapfRailSegment :=
  {| m_key := CYapfRailSegmentKey_copy key;
     m_last := PathPos_default;
     m_cost := -1;
     m_last_signal := PathPos_default;
     m_end_segment_reason := ESRB_NONE;
     m_hash_next := None |}.

Definition GetKey (s : CYapfRailSegment) : CYapfRailSegmentKey := m_key s.

Definition GetHashNext (s : CYapfRailSegment) : option nat := m_hash_next s.

Definition SetHashNext (next : option nat) (s : CYapfRailSegment) : CYapfRailSegment :=
  {| m_key := m_key s;
     m_last := m_last s;
     m_cost := m_cost s;
     m_last_signal := m_last_signal s;
     m_end_segment_reason := m_end_segment_reason s;
     m_hash_next := next |}.

(** ** [CYapfRailNodeT] *)

Record CYapfRailNodeT : Type := mkNode {
  base : Base;
  m_segment : option nat;  (* CYapfRailSegment * *)
  m_num_signals_passed : Z;  (* uint16 *)
  m_inherited_flags : Z;  (* uint32, the word of flags_u *)
  m_last_red_signal_type : SignalType;
  m_last_signal_type : SignalType
}.

(** The rail-specific members of a node, without its base sub-object. *)
Definition rail_state (n : CYapfRailNodeT)
    : option nat * Z * Z * SignalType * SignalType :=
  (m_segment n, m_num_signals_passed n, m_inherited_flags n,
   m_last_red_signal_type n, m_last_signal_type n).

Definition with_base (b : Base) (n : CYapfRailNodeT) : CYapfRailNodeT :=
  mkNode b (m_segment n) (m_num_signals_passed n) (m_inherited_flags n)
         (m_last_red_signal_type n) (m_last_signal_type n).

Definition with_m_segment (s : option nat) (n : CYapfRailNodeT) : CYapfRailNodeT :=
  mkNode (base n) s (m_num_signals_passed n) (m_inherited_flags n)
         (m_last_red_signal_type n) (m_last_signal_type n).

(** The four assignments of either branch of [Set]. *)
Definition with_signal_state (signals flags : Z) (red last : SignalType)
    (n : CYapfRailNodeT) : CYapfRailNodeT :=
  mkNode (base n) (m_segment n) signals flags red last.

Definition with_m_inherited_flags (flags : Z) (n : CYapfRailNodeT) : CYapfRailNodeT :=
  mkNode (base n) (m_segment n) (m_num_signals_passed n) flags
         (m_last_red_signal_type n) (m_last_signal_type n).

(** [Set(CYapfRailNodeT *parent, const PathPos &pos, bool is_choice)], called
    on the node at [this] of the node store [h].  The result is [None] when
    [this] or [parent] does not point into the store. *)
Definition CYapfRailNodeT_Set (this : nat) (parent : option nat) (pos : PathPos)
    (is_choice : bool) (h : list CYapfRailNodeT) : option (list CYapfRailNodeT) :=
  n0 ← h !! this;
  (* base::Set(parent, pos, is_choice); m_segment = NULL; *)
  let n1 := with_m_segment None
              (with_base (base_Set parent pos is_choice (base n0)) n0) in
  let h1 := <[this := n1]> h in
  n2 ← match parent with
       | None =>
           Some (with_signal_state 0 0 SIGTYPE_NORMAL SIGTYPE_PBS n1)
       | Some p =>
           pn ← h1 !! p;
           Some (with_signal_state (m_num_signals_passed pn) (m_inherited_flags pn)
                   (m_last_red_signal_type pn) (m_last_signal_type pn) n1)
       end;
  (* flags_u.flags_s.m_choice_seen |= is_choice; *)
  let flags := m_inherited_flags n2 in
  let n3 := with_m_inherited_flags
              (set_m_choice_seen (m_choice_seen flags || is_choice) flags) n2 in
  Some (<[this := n3]> h1).








(** The members of a node hold values of their C++ types: [uint16] for the
    number of signals passed, [uint32] for the flag word. *)
Definition node_in_range (n : CYapfRailNodeT) : Prop :=
  (0 ≤ m_num_signals_passed n < 2 ^ 16)%Z ∧ is_uint32 (m_inherited_flags n).

(** [GetLastPos()], on a node and the store of the segments. *)
Definition GetLastPos (n : CYapfRailNodeT) (segs : list CYapfRailSegment)
    : outcome PathPos :=
  match m_segment n with
  | None => AssertionFailure  (* assert(m_segment != NULL) *)
  | Some s =>
      match segs !! s with
      | Some seg => Returns (m_last seg)
      | None => InvalidPointer
      end
  end.

(** ** The segment cache

    The cache and its hash table are declared outside the rail node file,
    which only gives the cached item its key and its chain link ([GetKey],
    [GetHashNext], [SetHashNext]). *)

(** Modelled from the spec: the segment cache, which is declared outside the
    rail node file.  It owns the segments of a session and maps keys to them
    through a hash table with explicit collision chaining. *)
Record SegmentCache : Type := mkCache {
  segments : list CYapfRailSegment;  (* the segments, addressed by pointer *)
  slots : gmap Z nat  (* the first segment of the chain of each slot *)
}.

(** Modelled from the spec: the cache of a session that has just started,
    which is declared outside the rail node file. *)
Definition cache_empty : SegmentCache := {| segments := []; slots := ∅ |}.

(** Modelled from the spec: the walk along a collision chain, which is
    declared outside the rail node file.  It starts at [p] and looks for the
    segment whose key equals [key], following [GetHashNext]; it takes at
    most [fuel] steps. *)
Fixpoint find_in_chain (fuel : nat) (segs : list CYapfRailSegment)
    (key : CYapfRailSegmentKey) (p : option nat) : option nat :=
  match fuel with
  | O => None
  | S fuel' =>
      match p with
      | None => None
      | Some i =>
          match segs !! i with
          | None => None
          | Some s =>
              if CYapfRailSegmentKey_eq (GetKey s) key then Some i
              else find_in_chain fuel' segs key (GetHashNext s)
          end
      end
  end.

Definition slot_of_key (key : CYapfRailSegmentKey) : Z := slot_of (CalcHash key).

(** Modelled from the spec: the lookup by key, which is declared outside the
    rail node file.  The table is keyed by the hash of the key. *)
Definition cache_find (c : SegmentCache) (key : CYapfRailSegmentKey) : option nat :=
  find_in_chain (length (segments c)) (segments c) key (slots c !! slot_of_key key).

(** Modelled from the spec: the insertion on a miss, which is declared
    outside the rail node file.  A new segment is allocated, which the
    constructor leaves with the cost sentinel [-1], and it is put at the head
    of the chain of its slot. *)
Definition cache_push (c : SegmentCache) (key : CYapfRailSegmentKey)
    : nat * SegmentCache :=
  let p := length (segments c) in
  let item := SetHashNext (slots c !! slot_of_key key) (CYapfRailSegment_new key) in
  (p, {| segments := segments c ++ [item];
         slots := <[slot_of_key key := p]> (slots c) |}).

(** Modelled from the spec: [find_or_insert(key)], which is declared outside
    the rail node file.  It looks the key up and, if it is absent, allocates
    a new segment, inserts it and returns it. *)
Definition find_or_insert (c : SegmentCache) (key : CYapfRailSegmentKey)
    : nat * SegmentCache :=
  match cache_find c key with
  | Some p => (p, c)
  | None => cache_push c key
  end.

(** Modelled from the spec: what the rail expansion logic, which is outside
    the rail node file, finds by walking the track of a segment. *)
Record SegmentWalk : Type := mkWalk {
  walk_last : PathPos;
  walk_cost : Z;
  walk_last_signal : PathPos;
  walk_end_segment_reason : Z
}.

Definition write_walk (w : SegmentWalk) (s : CYapfRailSegment) : CYapfRailSegment :=
  {| m_key := m_key s;
     m_last := walk_last w;
     m_cost := walk_cost w;
     m_last_signal := walk_last_signal w;
     m_end_segment_reason := walk_end_segment_reason w;
     m_hash_next := m_hash_next s |}.

(** Modelled from the spec: the fill-in of a segment by the rail expansion
    logic, which is outside the rail node file.  If the cost is still the
    sentinel, what the walk found is written into the segment in place. *)
Definition fill_in (p : nat) (w : SegmentWalk) (c : SegmentCache) : SegmentCache :=
  match segments c !! p with
  | Some s =>
      if (m_cost s =? -1)%Z
      then {| segments := <[p := write_walk w s]> (segments c); slots := slots c |}
      else c
  | None => c
  end.

(** Modelled from the spec: the segment resolution of the rail expansion
    logic, which is outside the rail node file.  It fetches or creates the
    segment of the key and fills it in. *)
Definition resolve (c : SegmentCache) (key : CYapfRailSegmentKey) (w : SegmentWalk)
    : nat * SegmentCache :=
  let '(p, c') := find_or_insert c key in (p, fill_in p w c').

(** Modelled from the spec: the operations of a session on its cache, which
    are outside the rail node file. *)
Inductive cache_op : Type :=
| OpFindOrInsert (key : CYapfRailSegmentKey)
| OpResolve (key : CYapfRailSegmentKey) (w : SegmentWalk).

Definition run_op (c : SegmentCache) (op : cache_op) : SegmentCache :=
  match op with
  | OpFindOrInsert key => snd (find_or_insert c key)
  | OpResolve key w => snd (resolve c key w)
  end.

Definition run_ops (ops : list cache_op) (c : SegmentCache) : SegmentCache :=
  foldl run_op c ops.

(** Next pointers lead to older segments, slot heads point into the store. *)
Definition chains_descend (c : SegmentCache) : Prop :=
  (∀ i s j, segments c !! i = Some s → m_hash_next s = Some j → j < i) ∧
  (∀ b i, slots c !! b = Some i → i < length (segments c)).

(** Every segment of the store is the one that a lookup of its key finds. *)
Definition all_found (c : SegmentCache) : Prop :=
  ∀ i s, segments c !! i = Some s → cache_find c (m_key s) = Some i.

Definition cache_wf (c : SegmentCache) : Prop := chains_descend c ∧ all_found c.


(** * Properties *)

(** Reading back the element that was just written at a valid index. *)
Ltac lookup_written :=
  apply list_lookup_insert_eq; by eapply lookup_lt_Some.

(** ** Machine integers *)

Lemma uint32_of_range (z : Z) : is_uint32 (uint32_of z).
Proof. unfold is_uint32, uint32_of. apply Z.mod_pos_bound. lia. Qed.

Lemma uint32_of_id (z : Z) : is_uint32 z → uint32_of z = z.
Proof. unfold is_uint32, uint32_of. intros Hz. apply Z.mod_small. exact Hz. Qed.

Lemma int32_of_range (z : Z) : is_int32 (int32_of z).
Proof.
  unfold is_int32, int32_of.
  pose proof (Z.mod_pos_bound (z + 2 ^ 31) (2 ^ 32)) as Hb. lia.
Qed.

Lemma int32_of_id (z : Z) : is_int32 z → int32_of z = z.
Proof.
  unfold is_int32, int32_of. intros Hz.
  rewrite Z.mod_small by lia. lia.
Qed.

(** Converting to [int32] keeps the low 32 bits. *)
Lemma uint32_of_int32_of (z : Z) : uint32_of (int32_of z) = uint32_of z.
Proof.
  unfold uint32_of, int32_of.
  rewrite Zminus_mod_idemp_l. f_equal. lia.
Qed.

Lemma int32_of_uint32_of (z : Z) : int32_of (uint32_of z) = int32_of z.
Proof.
  unfold uint32_of, int32_of.
  rewrite Zplus_mod_idemp_l. reflexivity.
Qed.

Lemma int32_of_inj (a b : Z) :
  is_uint32 a → is_uint32 b → int32_of a = int32_of b → a = b.
Proof.
  intros Ha Hb Heq.
  rewrite <- (uint32_of_id a Ha), <- (uint32_of_id b Hb).
  rewrite <- (uint32_of_int32_of a), <- (uint32_of_int32_of b).
  by rewrite Heq.
Qed.

(** ** Packing a position *)

Lemma packed_tile (t d : Z) :
  (0 ≤ d < 16)%Z → Z.shiftr (Z.lor (Z.shiftl t 4) d) 4 = t.
Proof.
  intros Hd.
  rewrite Z.shiftr_lor, Z.shiftr_shiftl_l by lia.
  rewrite (Z.shiftr_div_pow2 d 4) by lia.
  rewrite (Z.div_small d) by (change (2 ^ 4)%Z with 16%Z; lia).
  rewrite Z.sub_diag, Z.shiftl_0_r. apply Z.lor_0_r.
Qed.

Lemma packed_td (t d : Z) :
  (0 ≤ d < 16)%Z → Z.land (Z.lor (Z.shiftl t 4) d) 15 = d.
Proof.
  intros Hd.
  change 15%Z with (Z.ones 4).
  rewrite Z.land_lor_distr_l.
  rewrite !Z.land_ones by lia.
  rewrite Z.shiftl_mul_pow2 by lia.
  rewrite Z.mod_mul by lia.
  rewrite Z.mod_small by (change (2 ^ 4)%Z with 16%Z; lia).
  apply Z.lor_0_l.
Qed.

Lemma packed_value (t d : Z) :
  (0 ≤ d < 16)%Z → Z.lor (Z.shiftl t 4) d = (t * 16 + d)%Z.
Proof.
  intros Hd.
  set (x := Z.lor (Z.shiftl t 4) d).
  pose proof (packed_tile t d Hd) as Ht.
  pose proof (packed_td t d Hd) as Hl.
  fold x in Ht, Hl.
  rewrite Z.shiftr_div_pow2 in Ht by lia.
  change 15%Z with (Z.ones 4) in Hl.
  rewrite Z.land_ones in Hl by lia.
  change (2 ^ 4)%Z with 16%Z in Ht, Hl.
  pose proof (Z.div_mod x 16). lia.
Qed.

(** ** Segment keys *)

Lemma CYapfRailSegmentKey_of_node_key_wf (h : Z) :
  key_wf (CYapfRailSegmentKey_of_node_key h).
Proof. apply uint32_of_range. Qed.

Lemma CYapfRailSegmentKey_copy_id (k : CYapfRailSegmentKey) :
  CYapfRailSegmentKey_copy k = k.
Proof. by destruct k. Qed.

Lemma CYapfRailSegmentKey_copy_wf (k : CYapfRailSegmentKey) :
  key_wf k → key_wf (CYapfRailSegmentKey_copy k).
Proof. intros Hk. exact Hk. Qed.

(** The hash of a segment key built from a node key is the hash of the node
    key: the round trip [int] to [uint32] to [int32] loses nothing. *)
Lemma CalcHash_of_node_key (h : Z) :
  is_int32 h → CalcHash (CYapfRailSegmentKey_of_node_key h) = h.
Proof.
  intros Hh. unfold CalcHash. simpl.
  rewrite int32_of_uint32_of. by apply int32_of_id.
Qed.

Lemma CalcHash_bit (k : CYapfRailSegmentKey) (i : Z) :
  (0 ≤ i < 32)%Z → Z.testbit (CalcHash k) i = Z.testbit (m_value k) i.
Proof.
  intros Hi.
  rewrite <- (Z.mod_pow2_bits_low (CalcHash k) 32 i) by lia.
  rewrite <- (Z.mod_pow2_bits_low (m_value k) 32 i) by lia.
  f_equal. apply uint32_of_int32_of.
Qed.

Lemma CYapfRailSegmentKey_eq_spec (k1 k2 : CYapfRailSegmentKey) :
  CYapfRailSegmentKey_eq k1 k2 = true ↔ k1 = k2.
Proof.
  unfold CYapfRailSegmentKey_eq. rewrite Z.eqb_eq.
  destruct k1 as [v1], k2 as [v2]; simpl.
  split; [intros ->; reflexivity | intros [= ->]; reflexivity].
Qed.

Lemma CYapfRailSegmentKey_eq_refl (k : CYapfRailSegmentKey) :
  CYapfRailSegmentKey_eq k k = true.
Proof. by apply CYapfRailSegmentKey_eq_spec. Qed.

(** C1: the hash of a segment key is its packed [m_value], bit for bit, and
    the same number whenever [m_value] is below [2^31].  The key built in
    track-direction mode from a position holds [(tile << 4) | trackdir] as a
    [uint32] and its hash is that packed value as an [int32]; when the tile
    index has 28 bits and the trackdir 4, nothing is cut off, and
    [m_value >> 4] and [m_value & 0x0F] give the tile and the trackdir back. *)
Theorem C1_hash_is_packed_value :
  (∀ k : CYapfRailSegmentKey,
     uint32_of (CalcHash k) = uint32_of (m_value k)
     ∧ (∀ i, (0 ≤ i < 32)%Z → Z.testbit (CalcHash k) i = Z.testbit (m_value k) i))
  ∧ (∀ k : CYapfRailSegmentKey,
       key_wf k →
       uint32_of (CalcHash k) = m_value k
       ∧ ((m_value k < 2 ^ 31)%Z → CalcHash k = m_value k))
  ∧ (∀ pos : PathPos,
       m_value (CYapfRailSegmentKey_of_pos pos)
       = uint32_of (Z.lor (Z.shiftl (tile pos) 4) (td pos))
       ∧ CalcHash (CYapfRailSegmentKey_of_pos pos)
         = int32_of (Z.lor (Z.shiftl (tile pos) 4) (td pos)))
  ∧ (∀ pos : PathPos,
       (0 ≤ tile pos < 2 ^ 28)%Z →
       (0 ≤ td pos < 16)%Z →
       let packed := Z.lor (Z.shiftl (tile pos) 4) (td pos) in
       let kp := CYapfRailSegmentKey_of_pos pos in
       m_value kp = packed
       ∧ uint32_of (CalcHash kp) = packed
       ∧ ((tile pos < 2 ^ 27)%Z → CalcHash kp = packed)
       ∧ Dump_tile kp = tile pos
       ∧ Dump_td kp = td pos).
Proof.
  split; [|split; [|split]].
  - intros k. split.
    + apply uint32_of_int32_of.
    + intros i Hi. by apply CalcHash_bit.
  - intros k Hk. split.
    + unfold CalcHash. rewrite uint32_of_int32_of. by apply uint32_of_id.
    + intros Hlt. unfold CalcHash. apply int32_of_id.
      unfold key_wf, is_uint32 in Hk. unfold is_int32. lia.
  - intros pos. split; [reflexivity|].
    unfold CalcHash. simpl. apply int32_of_uint32_of.
  - intros pos Ht Hd packed kp.
    assert (Hp : packed = (tile pos * 16 + td pos)%Z) by by apply packed_value.
    assert (Hv : m_value kp = packed).
    { subst kp. simpl. unfold CYapfNodeKeyTrackDir_CalcHash. fold packed.
      apply uint32_of_id. unfold is_uint32. lia. }
    split; [exact Hv|]. split; [|split; [|split]].
    + unfold CalcHash. rewrite uint32_of_int32_of, Hv.
      apply uint32_of_id. unfold is_uint32. lia.
    + intros Hlt. unfold CalcHash. rewrite Hv.
      apply int32_of_id. unfold is_int32. lia.
    + unfold Dump_tile. rewrite Hv. by apply packed_tile.
    + unfold Dump_td. rewrite Hv. by apply packed_td.
Qed.

(** C9: [operator ==] on segment keys is equality of the packed [m_value],
    and two keys are equal exactly when their hashes are: [CalcHash] is
    injective on keys. *)
Theorem C9_key_equality_iff_hash_equality (k1 k2 : CYapfRailSegmentKey) :
  key_wf k1 →
  key_wf k2 →
  (CYapfRailSegmentKey_eq k1 k2 = true ↔ m_value k1 = m_value k2)
  ∧ (CYapfRailSegmentKey_eq k1 k2 = true ↔ CalcHash k1 = CalcHash k2)
  ∧ (CalcHash k1 = CalcHash k2 → k1 = k2).
Proof.
  intros H1 H2.
  assert (Hinj : CalcHash k1 = CalcHash k2 → m_value k1 = m_value k2).
  { unfold CalcHash. by apply int32_of_inj. }
  split; [|split].
  - unfold CYapfRailSegmentKey_eq. apply Z.eqb_eq.
  - unfold CYapfRailSegmentKey_eq. rewrite Z.eqb_eq. split.
    + unfold CalcHash. by intros ->.
    + exact Hinj.
  - intros Hh. apply CYapfRailSegmentKey_eq_spec.
    unfold CYapfRailSegmentKey_eq. apply Z.eqb_eq. by apply Hinj.
Qed.

(** ** The one-bit fields *)

Lemma testbit_set_m_choice_seen (b : bool) (flags i : Z) :
  Z.testbit (set_m_choice_seen b flags) i
  = if (i =? 1)%Z then b else Z.testbit flags i.
Proof.
  unfold set_m_choice_seen, write_bit.
  destruct (Z.eqb_spec i 1) as [-> | Hne].
  - destruct b.
    + rewrite Z.setbit_eqb by lia. reflexivity.
    + rewrite Z.clearbit_eqb. simpl. apply andb_false_r.
  - assert (Hf : (1 =? i)%Z = false) by (apply Z.eqb_neq; lia).
    destruct b.
    + rewrite Z.setbit_eqb by lia. by rewrite Hf.
    + rewrite Z.clearbit_eqb, Hf. apply andb_true_r.
Qed.

Lemma m_choice_seen_set (b : bool) (flags : Z) :
  m_choice_seen (set_m_choice_seen b flags) = b.
Proof. unfold m_choice_seen. by rewrite testbit_set_m_choice_seen. Qed.

Lemma m_targed_seen_set (b : bool) (flags : Z) :
  m_targed_seen (set_m_choice_seen b flags) = m_targed_seen flags.
Proof. unfold m_targed_seen. by rewrite testbit_set_m_choice_seen. Qed.

Lemma m_last_signal_was_red_set (b : bool) (flags : Z) :
  m_last_signal_was_red (set_m_choice_seen b flags) = m_last_signal_was_red flags.
Proof. unfold m_last_signal_was_red. by rewrite testbit_set_m_choice_seen. Qed.


Lemma choice_or_word (flags : Z) (is_choice : bool) :
  set_m_choice_seen (m_choice_seen flags || is_choice) flags
  = if is_choice then Z.lor flags 2 else flags.
Proof.
  destruct is_choice.
  - rewrite orb_true_r. unfold set_m_choice_seen, write_bit.
    apply (Z.setbit_spec' flags 1).
  - rewrite orb_false_r. apply Z.bits_inj'. intros i Hi.
    rewrite testbit_set_m_choice_seen.
    by destruct (Z.eqb_spec i 1) as [-> | _].
Qed.



(** ** [Set] on a node of the store *)

Lemma Set_root (this : nat) (pos : PathPos) (is_choice : bool)
    (h : list CYapfRailNodeT) (n0 : CYapfRailNodeT) :
  h !! this = Some n0 →
  CYapfRailNodeT_Set this None pos is_choice h
  = Some (<[this := mkNode (base_Set None pos is_choice (base n0)) None 0
                      (set_m_choice_seen (m_choice_seen 0 || is_choice) 0)
                      SIGTYPE_NORMAL SIGTYPE_PBS]> h).
Proof.
  intros Hthis. unfold CYapfRailNodeT_Set. rewrite Hthis. simpl.
  by rewrite list_insert_insert_eq.
Qed.

Lemma Set_child (this p : nat) (pos : PathPos) (is_choice : bool)
    (h : list CYapfRailNodeT) (n0 pn : CYapfRailNodeT) :
  h !! this = Some n0 →
  h !! p = Some pn →
  CYapfRailNodeT_Set this (Some p) pos is_choice h
  = Some (<[this := mkNode (base_Set (Some p) pos is_choice (base n0)) None
                      (m_num_signals_passed pn)
                      (set_m_choice_seen
                         (m_choice_seen (m_inherited_flags pn) || is_choice)
                         (m_inherited_flags pn))
                      (m_last_red_signal_type pn) (m_last_signal_type pn)]> h).
Proof.
  intros Hthis Hp. unfold CYapfRailNodeT_Set. rewrite Hthis. simpl.
  destruct (decide (this = p)) as [-> | Hne].
  - assert (n0 = pn) as -> by congruence.
    rewrite list_lookup_insert_eq by by eapply lookup_lt_Some.
    simpl. by rewrite list_insert_insert_eq.
  - rewrite list_lookup_insert_ne by done. rewrite Hp.
    simpl. by rewrite list_insert_insert_eq.
Qed.

Lemma Set_this_is_Some (this : nat) (parent : option nat) (pos : PathPos)
    (is_choice : bool) (h h' : list CYapfRailNodeT) :
  CYapfRailNodeT_Set this parent pos is_choice h = Some h' →
  is_Some (h !! this).
Proof.
  unfold CYapfRailNodeT_Set. intros HS.
  destruct (h !! this) as [n0|]; [by eexists | discriminate].
Qed.

Lemma Set_parent_is_Some (this p : nat) (pos : PathPos)
    (is_choice : bool) (h h' : list CYapfRailNodeT) :
  CYapfRailNodeT_Set this (Some p) pos is_choice h = Some h' →
  is_Some (h !! p).
Proof.
  unfold CYapfRailNodeT_Set. intros HS.
  destruct (h !! this) as [n0|] eqn:Hthis; [|discriminate].
  simpl in HS.
  destruct (decide (this = p)) as [-> | Hne]; [by eexists|].
  rewrite list_lookup_insert_ne in HS by done.
  destruct (h !! p) as [pn|]; [by eexists | discriminate].
Qed.

(** C3: [Set] with a [NULL] parent leaves the node with no signal passed,
    with the flag word cleared before [m_choice_seen |= is_choice] (so
    [m_targed_seen] and [m_last_signal_was_red] are false and [m_choice_seen]
    is [is_choice]), with [SIGTYPE_NORMAL] as last red signal type and
    [SIGTYPE_PBS] as last signal type, whatever the position. *)
Theorem C3_root_defaults (this : nat) (pos : PathPos) (is_choice : bool)
    (h : list CYapfRailNodeT) (n0 : CYapfRailNodeT) :
  h !! this = Some n0 →
  ∃ (h' : list CYapfRailNodeT) (n : CYapfRailNodeT),
    CYapfRailNodeT_Set this None pos is_choice h = Some h'
    ∧ h' !! this = Some n
    ∧ m_num_signals_passed n = 0%Z
    ∧ m_inherited_flags n = set_m_choice_seen (m_choice_seen 0 || is_choice) 0
    ∧ m_inherited_flags n = (if is_choice then 2 else 0)%Z
    ∧ m_targed_seen (m_inherited_flags n) = false
    ∧ m_choice_seen (m_inherited_flags n) = is_choice
    ∧ m_last_signal_was_red (m_inherited_flags n) = false
    ∧ m_last_red_signal_type n = SIGTYPE_NORMAL
    ∧ m_last_signal_type n = SIGTYPE_PBS.
Proof.
  intros Hthis. eexists _, _.
  split; [by apply Set_root|].
  split; [lookup_written|].
  cbn [m_num_signals_passed m_inherited_flags m_last_red_signal_type
       m_last_signal_type].
  split; [done|]. split; [done|].
  split; [rewrite choice_or_word; by destruct is_choice|].
  split; [by rewrite m_targed_seen_set|].
  split; [by rewrite m_choice_seen_set|].
  split; [by rewrite m_last_signal_was_red_set|].
  by split.
Qed.

(** C4: [Set] with a parent copies the number of signals passed, the flag
    word, the last red signal type and the last signal type from the parent,
    and then ORs [is_choice] into [m_choice_seen]: the child's [m_choice_seen]
    is the parent's or [is_choice], and every other bit of the flag word is
    the parent's. *)
Theorem C4_child_copies_parent (this p : nat) (pos : PathPos) (is_choice : bool)
    (h : list CYapfRailNodeT) (n0 pn : CYapfRailNodeT) :
  h !! this = Some n0 →
  h !! p = Some pn →
  ∃ (h' : list CYapfRailNodeT) (n : CYapfRailNodeT),
    CYapfRailNodeT_Set this (Some p) pos is_choice h = Some h'
    ∧ h' !! this = Some n
    ∧ m_num_signals_passed n = m_num_signals_passed pn
    ∧ m_last_red_signal_type n = m_last_red_signal_type pn
    ∧ m_last_signal_type n = m_last_signal_type pn
    ∧ m_inherited_flags n
      = set_m_choice_seen (m_choice_seen (m_inherited_flags pn) || is_choice)
          (m_inherited_flags pn)
    ∧ m_choice_seen (m_inherited_flags n)
      = m_choice_seen (m_inherited_flags pn) || is_choice
    ∧ (∀ i : Z, i ≠ 1%Z →
         Z.testbit (m_inherited_flags n) i = Z.testbit (m_inherited_flags pn) i)
    ∧ (is_choice = false → m_inherited_flags n = m_inherited_flags pn).
Proof.
  intros Hthis Hp. eexists _, _.
  split; [by eapply Set_child|].
  split; [lookup_written|].
  cbn [m_num_signals_passed m_inherited_flags m_last_red_signal_type
       m_last_signal_type].
  split; [done|]. split; [done|]. split; [done|]. split; [done|].
  split; [by rewrite m_choice_seen_set|].
  split.
  - intros i Hi. rewrite testbit_set_m_choice_seen.
    by destruct (Z.eqb_spec i 1).
  - intros ->. by rewrite choice_or_word.
Qed.





(** C6: [Set] leaves the segment pointer of the node [NULL]; [GetLastPos] on
    a node whose segment pointer is [NULL] fails its assertion; on a node
    whose segment pointer has been resolved to a segment of the cache it
    returns the last position of that segment, and the assertion holds. *)
Theorem C6_GetLastPos_needs_segment :
  (∀ (this : nat) (parent : option nat) (pos : PathPos) (is_choice : bool)
     (h h' : list CYapfRailNodeT) (segs : list CYapfRailSegment),
     CYapfRailNodeT_Set this parent pos is_choice h = Some h' →
     ∃ n : CYapfRailNodeT,
       h' !! this = Some n ∧ m_segment n = None
       ∧ GetLastPos n segs = AssertionFailure)
  ∧ (∀ (n : CYapfRailNodeT) (segs : list CYapfRailSegment),
       m_segment n = None → GetLastPos n segs = AssertionFailure)
  ∧ (∀ (n : CYapfRailNodeT) (segs : list CYapfRailSegment) (s : nat)
       (seg : CYapfRailSegment),
       m_segment n = Some s →
       segs !! s = Some seg →
       GetLastPos n segs = Returns (m_last seg)
       ∧ GetLastPos n segs ≠ AssertionFailure).
Proof.
  split; [|split].
  - intros this parent pos is_choice h h' segs HS.
    destruct (Set_this_is_Some _ _ _ _ _ _ HS) as [n0 Hthis].
    pose proof (lookup_lt_Some _ _ _ Hthis) as Hlt.
    destruct parent as [p|].
    + destruct (Set_parent_is_Some _ _ _ _ _ _ HS) as [pn Hp].
      rewrite (Set_child _ _ _ _ _ _ _ Hthis Hp) in HS. injection HS as <-.
      eexists. split; [by apply list_lookup_insert_eq|]. by split.
    + rewrite (Set_root _ _ _ _ _ Hthis) in HS. injection HS as <-.
      eexists. split; [by apply list_lookup_insert_eq|]. by split.
  - intros n segs Hn. unfold GetLastPos. by rewrite Hn.
  - intros n segs s seg Hn Hs. unfold GetLastPos. rewrite Hn, Hs. by split.
Qed.

(** C7: the constructor leaves a segment in the state "not yet computed":
    its cost is the sentinel [-1], its set of end reasons is the empty
    [ESRB_NONE] and its chain link is [NULL], for every key. *)
Theorem C7_new_segment_not_computed (key : CYapfRailSegmentKey) :
  m_cost (CYapfRailSegment_new key) = (-1)%Z
  ∧ m_end_segment_reason (CYapfRailSegment_new key) = ESRB_NONE
  ∧ (∀ i : Z, Z.testbit (m_end_segment_reason (CYapfRailSegment_new key)) i = false)
  ∧ m_hash_next (CYapfRailSegment_new key) = None
  ∧ GetHashNext (CYapfRailSegment_new key) = None
  ∧ GetKey (CYapfRailSegment_new key) = key.
Proof.
  repeat split.
  - intros i. simpl. unfold ESRB_NONE. apply Z.bits_0.
  - apply CYapfRailSegmentKey_copy_id.
Qed.

(** C10: [Set] overwrites every rail-specific member, so what it leaves in
    them is a function of the rail state of the parent and of [is_choice]
    alone: two calls with the same parent state, position and [is_choice]
    leave the same rail state, whatever the two nodes held before. *)
Theorem C10_Set_overwrites_rail_state :
  (∀ (this1 this2 : nat) (pos : PathPos) (is_choice : bool)
     (h1 h2 : list CYapfRailNodeT) (a1 a2 : CYapfRailNodeT),
     h1 !! this1 = Some a1 →
     h2 !! this2 = Some a2 →
     ∃ (h1' h2' : list CYapfRailNodeT) (n1 n2 : CYapfRailNodeT),
       CYapfRailNodeT_Set this1 None pos is_choice h1 = Some h1'
       ∧ CYapfRailNodeT_Set this2 None pos is_choice h2 = Some h2'
       ∧ h1' !! this1 = Some n1 ∧ h2' !! this2 = Some n2
       ∧ rail_state n1 = rail_state n2)
  ∧ (∀ (this1 this2 p1 p2 : nat) (pos : PathPos) (is_choice : bool)
       (h1 h2 : list CYapfRailNodeT) (a1 a2 pn1 pn2 : CYapfRailNodeT),
       h1 !! this1 = Some a1 →
       h2 !! this2 = Some a2 →
       h1 !! p1 = Some pn1 →
       h2 !! p2 = Some pn2 →
       rail_state pn1 = rail_state pn2 →
       ∃ (h1' h2' : list CYapfRailNodeT) (n1 n2 : CYapfRailNodeT),
         CYapfRailNodeT_Set this1 (Some p1) pos is_choice h1 = Some h1'
         ∧ CYapfRailNodeT_Set this2 (Some p2) pos is_choice h2 = Some h2'
         ∧ h1' !! this1 = Some n1 ∧ h2' !! this2 = Some n2
         ∧ rail_state n1 = rail_state n2).
Proof.
  split.
  - intros this1 this2 pos is_choice h1 h2 a1 a2 H1 H2.
    eexists _, _, _, _.
    split; [by apply Set_root|]. split; [by apply Set_root|].
    split; [lookup_written|].
    split; [lookup_written|].
    reflexivity.
  - intros this1 this2 p1 p2 pos is_choice h1 h2 a1 a2 pn1 pn2 H1 H2 Hp1 Hp2 Heq.
    eexists _, _, _, _.
    split; [by eapply Set_child|]. split; [by eapply Set_child|].
    split; [lookup_written|].
    split; [lookup_written|].
    unfold rail_state in *. simpl. congruence.
Qed.

(** ** Walking a chain *)

Lemma find_in_chain_Some (fuel : nat) (segs : list CYapfRailSegment)
    (key : CYapfRailSegmentKey) (p : option nat) (i : nat) :
  find_in_chain fuel segs key p = Some i →
  ∃ s, segs !! i = Some s ∧ CYapfRailSegmentKey_eq (m_key s) key = true.
Proof.
  revert p. induction fuel as [|fuel IH]; intros p Hf; simpl in Hf; [done|].
  destruct p as [i0|]; [|done].
  destruct (segs !! i0) as [s|] eqn:Hs; [|done].
  unfold GetKey, GetHashNext in Hf.
  destruct (CYapfRailSegmentKey_eq (m_key s) key) eqn:Hk.
  - injection Hf as <-. by exists s.
  - by eapply IH.
Qed.

(** A hit stays a hit when segments are appended and fuel is added. *)
Lemma find_in_chain_app (fuel fuel' : nat) (segs l : list CYapfRailSegment)
    (key : CYapfRailSegmentKey) (p : option nat) (i : nat) :
  fuel ≤ fuel' →
  find_in_chain fuel segs key p = Some i →
  find_in_chain fuel' (segs ++ l) key p = Some i.
Proof.
  revert fuel' p. induction fuel as [|fuel IH]; intros fuel' p Hle Hf;
    simpl in Hf; [done|].
  destruct fuel' as [|fuel']; [lia|]. simpl.
  destruct p as [i0|]; [|done].
  destruct (segs !! i0) as [s|] eqn:Hs; [|done].
  rewrite (lookup_app_l_Some _ _ _ _ Hs).
  destruct (CYapfRailSegmentKey_eq (GetKey s) key); [done|].
  apply IH; [lia | done].
Qed.

(** The walk reads only the keys and the chain links. *)
Lemma find_in_chain_ext (fuel : nat) (segs segs' : list CYapfRailSegment)
    (key : CYapfRailSegmentKey) (p : option nat) :
  (∀ i, (λ s, (m_key s, m_hash_next s)) <$> segs !! i
        = (λ s, (m_key s, m_hash_next s)) <$> segs' !! i) →
  find_in_chain fuel segs key p = find_in_chain fuel segs' key p.
Proof.
  intros Hext. revert p. induction fuel as [|fuel IH]; intros p; simpl; [done|].
  destruct p as [i0|]; [|done].
  specialize (Hext i0).
  destruct (segs !! i0) as [s|], (segs' !! i0) as [s'|]; simpl in Hext; try done.
  injection Hext as Hk Hn. unfold GetKey, GetHashNext. rewrite Hk, Hn.
  destruct (CYapfRailSegmentKey_eq (m_key s') key); [done | apply IH].
Qed.

(** On chains that lead to older segments, a walk that starts below [fuel]
    never runs out of fuel. *)
Lemma find_in_chain_fuel (fuel fuel' : nat) (segs : list CYapfRailSegment)
    (key : CYapfRailSegmentKey) (p : option nat) :
  (∀ i s j, segs !! i = Some s → m_hash_next s = Some j → j < i) →
  (∀ i, p = Some i → i < fuel) →
  fuel ≤ fuel' →
  find_in_chain fuel' segs key p = find_in_chain fuel segs key p.
Proof.
  intros Hdesc. revert fuel' p.
  induction fuel as [|fuel IH]; intros fuel' p Hp Hle.
  - destruct p as [i|]; [specialize (Hp i eq_refl); lia|].
    by destruct fuel'.
  - destruct fuel' as [|fuel']; [lia|]. simpl.
    destruct p as [i|]; [|done].
    destruct (segs !! i) as [s|] eqn:Hs; [|done].
    destruct (CYapfRailSegmentKey_eq (GetKey s) key); [done|].
    apply IH; [|lia].
    intros j Hj. specialize (Hdesc i s j Hs Hj). specialize (Hp i eq_refl). lia.
Qed.

(** ** The cache *)

Lemma cache_empty_wf : cache_wf cache_empty.
Proof.
  split; [split|].
  - intros i s j Hs. simpl in Hs. by rewrite lookup_nil in Hs.
  - intros b i Hb. simpl in Hb. by rewrite lookup_empty in Hb.
  - intros i s Hs. simpl in Hs. by rewrite lookup_nil in Hs.
Qed.

Lemma cache_find_Some (c : SegmentCache) (key : CYapfRailSegmentKey) (i : nat) :
  cache_find c key = Some i →
  ∃ s, segments c !! i = Some s ∧ m_key s = key.
Proof.
  intros Hf. destruct (find_in_chain_Some _ _ _ _ _ Hf) as (s & Hs & Hk).
  exists s. split; [done | by apply CYapfRailSegmentKey_eq_spec].
Qed.

Lemma cache_push_wf (c : SegmentCache) (key : CYapfRailSegmentKey) :
  cache_wf c → cache_find c key = None → cache_wf (snd (cache_push c key)).
Proof.
  intros [[Hnext Hslot] Hfound] Hmiss.
  unfold cache_push. simpl.
  set (item := SetHashNext (slots c !! slot_of_key key) (CYapfRailSegment_new key)).
  split; [split|].
  - intros i s j Hs Hj. simpl in Hs.
    apply lookup_app_Some in Hs as [Hs | [Hlen Hs]].
    + by eapply Hnext.
    + apply list_lookup_singleton_Some in Hs as [Hi <-].
      simpl in Hj. apply Hslot in Hj. lia.
  - intros b i Hb. simpl in Hb. simpl. rewrite length_app. simpl.
    destruct (decide (slot_of_key key = b)) as [<- | Hne].
    + rewrite lookup_insert_eq in Hb. injection Hb as <-. lia.
    + rewrite lookup_insert_ne in Hb by done. apply Hslot in Hb. lia.
  - intros i s Hs. simpl in Hs. unfold cache_find. simpl.
    rewrite length_app. simpl. rewrite Nat.add_1_r.
    apply lookup_app_Some in Hs as [Hs | [Hlen Hs]].
    + pose proof (Hfound i s Hs) as Hold. unfold cache_find in Hold.
      assert (Hne : CYapfRailSegmentKey_eq key (m_key s) = false).
      { destruct (CYapfRailSegmentKey_eq key (m_key s)) eqn:Hk; [|done].
        apply CYapfRailSegmentKey_eq_spec in Hk. subst key.
        unfold cache_find in Hmiss. congruence. }
      destruct (decide (slot_of_key key = slot_of_key (m_key s))) as [Heq | Hdiff].
      * rewrite <- Heq, lookup_insert_eq. simpl.
        rewrite list_lookup_middle by done.
        unfold GetKey, GetHashNext. subst item. simpl.
        rewrite CYapfRailSegmentKey_copy_id, Hne, Heq. by apply find_in_chain_app with (fuel := length (segments c)).
      * rewrite lookup_insert_ne by done.
        apply find_in_chain_app with (fuel := length (segments c)); [lia | done].
    + apply list_lookup_singleton_Some in Hs as [Hi <-].
      assert (i = length (segments c)) as -> by lia.
      assert (Hkey : m_key item = key) by apply CYapfRailSegmentKey_copy_id.
      rewrite Hkey, lookup_insert_eq. simpl.
      rewrite list_lookup_middle by done.
      unfold GetKey. rewrite Hkey. by rewrite CYapfRailSegmentKey_eq_refl.
Qed.

Lemma find_or_insert_wf (c : SegmentCache) (key : CYapfRailSegmentKey) :
  cache_wf c → cache_wf (snd (find_or_insert c key)).
Proof.
  intros Hwf. unfold find_or_insert.
  destruct (cache_find c key) eqn:Hf; [done | by apply cache_push_wf].
Qed.

Lemma fill_in_wf (p : nat) (w : SegmentWalk) (c : SegmentCache) :
  cache_wf c → cache_wf (fill_in p w c).
Proof.
  intros Hwf. unfold fill_in.
  destruct (segments c !! p) as [s|] eqn:Hp; [|done].
  destruct (m_cost s =? -1)%Z; [|done].
  destruct Hwf as [[Hnext Hslot] Hfound].
  assert (Hext : ∀ i, (λ s, (m_key s, m_hash_next s)) <$> segments c !! i
                      = (λ s, (m_key s, m_hash_next s))
                          <$> <[p := write_walk w s]> (segments c) !! i).
  { intros i. destruct (decide (p = i)) as [<- | Hne].
    - rewrite list_lookup_insert_eq by by eapply lookup_lt_Some.
      by rewrite Hp.
    - by rewrite list_lookup_insert_ne. }
  split; [split|].
  - intros i s' j Hs' Hj. simpl in Hs'.
    apply list_lookup_insert_Some in Hs' as [(<- & <- & Hlt) | (Hne & Hs')].
    + simpl in Hj. by eapply Hnext.
    + by eapply Hnext.
  - intros b i Hb. simpl in *. rewrite length_insert. by eapply Hslot.
  - intros i s' Hs'. unfold cache_find. simpl in *. rewrite length_insert.
    rewrite <- (find_in_chain_ext _ _ _ _ _ Hext).
    apply list_lookup_insert_Some in Hs' as [(<- & <- & Hlt) | (Hne & Hs')].
    + simpl. by apply Hfound.
    + by apply Hfound.
Qed.

Lemma run_op_wf (c : SegmentCache) (op : cache_op) :
  cache_wf c → cache_wf (run_op c op).
Proof.
  intros Hwf. destruct op as [key | key w]; simpl.
  - by apply find_or_insert_wf.
  - unfold resolve.
    pose proof (find_or_insert_wf c key Hwf) as Hwf'.
    destruct (find_or_insert c key) as [p c']. simpl in *.
    by apply fill_in_wf.
Qed.

Lemma run_ops_wf (ops : list cache_op) (c : SegmentCache) :
  cache_wf c → cache_wf (run_ops ops c).
Proof.
  revert c. induction ops as [|op ops IH]; intros c Hwf; [done|].
  simpl. apply IH. by apply run_op_wf.
Qed.

(** A lookup right after [find_or_insert] hits the segment it returned. *)
Lemma find_or_insert_hit (c : SegmentCache) (key : CYapfRailSegmentKey) :
  cache_find (snd (find_or_insert c key)) key = Some (fst (find_or_insert c key)).
Proof.
  unfold find_or_insert.
  destruct (cache_find c key) as [p|] eqn:Hf; [done|].
  unfold cache_push, cache_find. simpl.
  rewrite length_app. simpl. rewrite Nat.add_1_r.
  rewrite lookup_insert_eq. simpl.
  rewrite list_lookup_middle by done.
  unfold GetKey. simpl.
  by rewrite CYapfRailSegmentKey_copy_id, CYapfRailSegmentKey_eq_refl.
Qed.

Lemma find_or_insert_again (c : SegmentCache) (key : CYapfRailSegmentKey)
    (p : nat) (c1 : SegmentCache) :
  find_or_insert c key = (p, c1) → find_or_insert c1 key = (p, c1).
Proof.
  intros Hr. pose proof (find_or_insert_hit c key) as Hhit.
  rewrite Hr in Hhit. simpl in Hhit.
  unfold find_or_insert. by rewrite Hhit.
Qed.

(** The segment that a miss allocates is not yet computed. *)
Lemma find_or_insert_miss_new (c : SegmentCache) (key : CYapfRailSegmentKey) :
  cache_find c key = None →
  ∃ seg : CYapfRailSegment,
    segments (snd (find_or_insert c key)) !! fst (find_or_insert c key) = Some seg
    ∧ m_cost seg = (-1)%Z
    ∧ m_end_segment_reason seg = ESRB_NONE
    ∧ m_key seg = key.
Proof.
  intros Hmiss. unfold find_or_insert. rewrite Hmiss. simpl.
  eexists. split; [apply list_lookup_middle; reflexivity|].
  simpl. repeat split. apply CYapfRailSegmentKey_copy_id.
Qed.

(** ** Segments across the operations of a session *)

Lemma find_or_insert_keeps (c : SegmentCache) (key : CYapfRailSegmentKey)
    (i : nat) (s : CYapfRailSegment) :
  segments c !! i = Some s →
  segments (snd (find_or_insert c key)) !! i = Some s.
Proof.
  intros Hs. unfold find_or_insert.
  destruct (cache_find c key); [done|].
  simpl. by apply lookup_app_l_Some.
Qed.

Lemma fill_in_keeps_key (p : nat) (w : SegmentWalk) (c : SegmentCache)
    (i : nat) (s : CYapfRailSegment) :
  segments c !! i = Some s →
  ∃ s', segments (fill_in p w c) !! i = Some s' ∧ m_key s' = m_key s.
Proof.
  intros Hs. unfold fill_in.
  destruct (segments c !! p) as [sp|] eqn:Hp; [|by exists s].
  destruct (m_cost sp =? -1)%Z; [|by exists s].
  simpl. destruct (decide (p = i)) as [-> | Hne].
  - exists (write_walk w sp).
    split; [lookup_written|].
    simpl. congruence.
  - exists s. by rewrite list_lookup_insert_ne.
Qed.

Lemma fill_in_keeps_completed (p : nat) (w : SegmentWalk) (c : SegmentCache)
    (i : nat) (s : CYapfRailSegment) :
  segments c !! i = Some s →
  m_cost s ≠ (-1)%Z →
  segments (fill_in p w c) !! i = Some s.
Proof.
  intros Hs Hcost. unfold fill_in.
  destruct (segments c !! p) as [sp|] eqn:Hp; [|done].
  destruct (Z.eqb_spec (m_cost sp) (-1)) as [Hsent | _]; [|done].
  simpl. rewrite list_lookup_insert_ne; [done|].
  intros ->. congruence.
Qed.

Lemma run_op_keeps_key (c : SegmentCache) (op : cache_op)
    (i : nat) (s : CYapfRailSegment) :
  segments c !! i = Some s →
  ∃ s', segments (run_op c op) !! i = Some s' ∧ m_key s' = m_key s.
Proof.
  intros Hs. destruct op as [key | key w]; simpl.
  - exists s. split; [by apply find_or_insert_keeps | done].
  - unfold resolve.
    pose proof (find_or_insert_keeps c key i s Hs) as Hs'.
    destruct (find_or_insert c key) as [p c']. simpl in *.
    by apply fill_in_keeps_key.
Qed.

Lemma run_ops_keeps_key (ops : list cache_op) (c : SegmentCache)
    (i : nat) (s : CYapfRailSegment) :
  segments c !! i = Some s →
  ∃ s', segments (run_ops ops c) !! i = Some s' ∧ m_key s' = m_key s.
Proof.
  revert c s. induction ops as [|op ops IH]; intros c s Hs; [by exists s|].
  simpl. destruct (run_op_keeps_key c op i s Hs) as (s1 & Hs1 & Hk1).
  destruct (IH _ _ Hs1) as (s2 & Hs2 & Hk2).
  exists s2. split; [done | congruence].
Qed.

Lemma run_op_keeps_completed (c : SegmentCache) (op : cache_op)
    (i : nat) (s : CYapfRailSegment) :
  segments c !! i = Some s →
  m_cost s ≠ (-1)%Z →
  segments (run_op c op) !! i = Some s.
Proof.
  intros Hs Hcost. destruct op as [key | key w]; simpl.
  - by apply find_or_insert_keeps.
  - unfold resolve.
    pose proof (find_or_insert_keeps c key i s Hs) as Hs'.
    destruct (find_or_insert c key) as [p c']. simpl in *.
    by apply fill_in_keeps_completed.
Qed.

Lemma cache_wf_unique (c : SegmentCache) (i j : nat) (si sj : CYapfRailSegment) :
  cache_wf c →
  segments c !! i = Some si →
  segments c !! j = Some sj →
  CYapfRailSegmentKey_eq (m_key si) (m_key sj) = true →
  i = j.
Proof.
  intros [_ Hfound] Hi Hj Hk.
  apply CYapfRailSegmentKey_eq_spec in Hk.
  pose proof (Hfound i si Hi) as Hfi. pose proof (Hfound j sj Hj) as Hfj.
  rewrite Hk in Hfi. congruence.
Qed.

(** C2: a second [find_or_insert] with the same key returns the segment that
    the first one returned and leaves the cache as it is, also after any
    further operations of the session; the segments of a session have
    pairwise different keys; and no lookup of a session runs out of fuel. *)
Theorem C2_find_or_insert_idempotent :
  (∀ (c : SegmentCache) (key : CYapfRailSegmentKey) (p : nat) (c1 : SegmentCache),
     find_or_insert c key = (p, c1) → find_or_insert c1 key = (p, c1))
  ∧ (∀ (ops1 ops2 : list cache_op) (key : CYapfRailSegmentKey) (p : nat)
       (c1 : SegmentCache),
       find_or_insert (run_ops ops1 cache_empty) key = (p, c1) →
       find_or_insert (run_ops ops2 c1) key = (p, run_ops ops2 c1))
  ∧ (∀ (ops : list cache_op) (i j : nat) (si sj : CYapfRailSegment),
       segments (run_ops ops cache_empty) !! i = Some si →
       segments (run_ops ops cache_empty) !! j = Some sj →
       CYapfRailSegmentKey_eq (m_key si) (m_key sj) = true →
       i = j)
  ∧ (∀ (ops : list cache_op) (key : CYapfRailSegmentKey) (fuel : nat),
       length (segments (run_ops ops cache_empty)) ≤ fuel →
       find_in_chain fuel (segments (run_ops ops cache_empty)) key
         (slots (run_ops ops cache_empty) !! slot_of_key key)
       = cache_find (run_ops ops cache_empty) key).
Proof.
  split; [|split; [|split]].
  - apply find_or_insert_again.
  - intros ops1 ops2 key p c1 Hr.
    assert (Hwf1 : cache_wf c1).
    { pose proof (find_or_insert_wf _ key (run_ops_wf ops1 _ cache_empty_wf)) as Hw.
      by rewrite Hr in Hw. }
    pose proof (find_or_insert_hit (run_ops ops1 cache_empty) key) as Hhit.
    rewrite Hr in Hhit. simpl in Hhit.
    destruct (cache_find_Some _ _ _ Hhit) as (s & Hs & Hk).
    destruct (run_ops_keeps_key ops2 c1 p s Hs) as (s' & Hs' & Hk').
    destruct (run_ops_wf ops2 c1 Hwf1) as [_ Hfound].
    pose proof (Hfound p s' Hs') as Hf. rewrite Hk', Hk in Hf.
    unfold find_or_insert. by rewrite Hf.
  - intros ops i j si sj. apply cache_wf_unique.
    apply run_ops_wf, cache_empty_wf.
  - intros ops key fuel Hle.
    destruct (run_ops_wf ops _ cache_empty_wf) as [[Hnext Hslot] _].
    unfold cache_find. apply find_in_chain_fuel; [exact Hnext | | exact Hle].
    intros i Hi. by eapply Hslot.
Qed.

(** C8: a segment whose cost is not the sentinel [-1] is left as it is, in
    all of its members, by every sequence of operations of the session. *)
Theorem C8_completed_segment_immutable (ops : list cache_op) (c : SegmentCache)
    (p : nat) (seg : CYapfRailSegment) :
  segments c !! p = Some seg →
  m_cost seg ≠ (-1)%Z →
  segments (run_ops ops c) !! p = Some seg.
Proof.
  revert c. induction ops as [|op ops IH]; intros c Hs Hcost; [done|].
  simpl. apply IH; [|done]. by apply run_op_keeps_completed.
Qed.

(** * Further properties of the rail node file *)

(** X1: building a segment key from a node key and hashing it gives the hash
    of the node key back, whatever the key object held before; so two
    segment keys built from node keys compare equal exactly when the node
    keys have the same hash. *)
Theorem X1_node_key_hash_round_trip (h1 h2 : Z) (this1 this2 : CYapfRailSegmentKey) :
  is_int32 h1 →
  is_int32 h2 →
  CalcHash (CYapfRailSegmentKey_Set_node_key h1 this1) = h1
  ∧ CalcHash (CYapfRailSegmentKey_of_node_key h1) = h1
  ∧ key_wf (CYapfRailSegmentKey_Set_node_key h1 this1)
  ∧ (CYapfRailSegmentKey_eq (CYapfRailSegmentKey_Set_node_key h1 this1)
       (CYapfRailSegmentKey_Set_node_key h2 this2) = true ↔ h1 = h2).
Proof.
  intros H1 H2.
  assert (Hrt : ∀ h this, is_int32 h →
                  CalcHash (CYapfRailSegmentKey_Set_node_key h this) = h).
  { intros h this Hh. unfold CalcHash. simpl.
    rewrite int32_of_uint32_of. by apply int32_of_id. }
  split; [by apply Hrt|]. split; [by apply Hrt|].
  split; [apply uint32_of_range|].
  split.
  - intros Heq. apply CYapfRailSegmentKey_eq_spec in Heq.
    rewrite <- (Hrt h1 this1 H1), <- (Hrt h2 this2 H2). by rewrite Heq.
  - intros ->. apply CYapfRailSegmentKey_eq_spec. reflexivity.
Qed.

Lemma unpack_pack (v : Z) :
  Z.lor (Z.shiftl (Z.shiftr v 4) 4) (Z.land v 15) = v.
Proof.
  assert (Hd : (0 ≤ Z.land v 15 < 16)%Z).
  { change 15%Z with (Z.ones 4). rewrite Z.land_ones by lia.
    change (2 ^ 4)%Z with 16%Z. apply Z.mod_pos_bound. lia. }
  rewrite packed_value by exact Hd.
  rewrite Z.shiftr_div_pow2 by lia.
  change 15%Z with (Z.ones 4). rewrite Z.land_ones by lia.
  change (2 ^ 4)%Z with 16%Z.
  pose proof (Z.div_mod v 16). lia.
Qed.

(** X2: the two values that [Dump] writes for a key determine the key: the
    trackdir value has 4 bits, the tile value 28, packing them gives
    [m_value] back, and keys with the same two values are equal. *)
Theorem X2_key_Dump_lossless (k1 k2 : CYapfRailSegmentKey) :
  key_wf k1 →
  key_wf k2 →
  (0 ≤ Dump_td k1 < 16)%Z
  ∧ (0 ≤ Dump_tile k1 < 2 ^ 28)%Z
  ∧ m_value k1 = Z.lor (Z.shiftl (Dump_tile k1) 4) (Dump_td k1)
  ∧ (Dump_tile k1 = Dump_tile k2 → Dump_td k1 = Dump_td k2 → k1 = k2).
Proof.
  intros H1 H2. unfold key_wf, is_uint32 in H1, H2. unfold Dump_tile, Dump_td.
  split; [|split; [|split]].
  - change 15%Z with (Z.ones 4). rewrite Z.land_ones by lia.
    change (2 ^ 4)%Z with 16%Z. apply Z.mod_pos_bound. lia.
  - rewrite Z.shiftr_div_pow2 by lia. change (2 ^ 4)%Z with 16%Z.
    split; [apply Z.div_pos; lia|].
    apply Z.div_lt_upper_bound; lia.
  - symmetry. apply unpack_pack.
  - intros Ht Hd. destruct k1 as [v1], k2 as [v2]. simpl in *.
    f_equal. rewrite <- (unpack_pack v1), <- (unpack_pack v2).
    by rewrite Ht, Hd.
Qed.

(** X3: [Set] writes to the node it is called on and to nothing else: the
    store keeps its size and every other node, the parent among them, is
    left as it was. *)
Theorem X3_Set_leaves_other_nodes (this : nat) (parent : option nat) (pos : PathPos)
    (is_choice : bool) (h h' : list CYapfRailNodeT) :
  CYapfRailNodeT_Set this parent pos is_choice h = Some h' →
  length h' = length h
  ∧ (∀ j : nat, j ≠ this → h' !! j = h !! j)
  ∧ (∀ p : nat, parent = Some p → p ≠ this → h' !! p = h !! p).
Proof.
  intros HS.
  destruct (Set_this_is_Some _ _ _ _ _ _ HS) as [n0 Hthis].
  assert (Hh' : ∃ n, h' = <[this := n]> h).
  { destruct parent as [p|].
    - destruct (Set_parent_is_Some _ _ _ _ _ _ HS) as [pn Hp].
      rewrite (Set_child _ _ _ _ _ _ _ Hthis Hp) in HS. injection HS as <-.
      by eexists.
    - rewrite (Set_root _ _ _ _ _ Hthis) in HS. injection HS as <-.
      by eexists. }
  destruct Hh' as [n ->].
  split; [apply length_insert|].
  split.
  - intros j Hj. by apply list_lookup_insert_ne.
  - intros p _ Hp. by apply list_lookup_insert_ne.
Qed.

Lemma is_uint32_bits (x : Z) :
  is_uint32 x ↔ (0 ≤ x)%Z ∧ ∀ i : Z, (32 ≤ i)%Z → Z.testbit x i = false.
Proof.
  unfold is_uint32. split.
  - intros Hx. split; [lia|]. intros i Hi.
    rewrite <- (Z.mod_small x (2 ^ 32)) by lia.
    apply Z.mod_pow2_bits_high. lia.
  - intros [Hx Hbits].
    assert (Hm : (x mod 2 ^ 32 = x)%Z).
    { apply Z.bits_inj'. intros i Hi.
      destruct (Z_lt_le_dec i 32) as [Hlt | Hge].
      - apply Z.mod_pow2_bits_low. lia.
      - rewrite Z.mod_pow2_bits_high by lia. symmetry. by apply Hbits. }
    pose proof (Z.mod_pos_bound x (2 ^ 32)). lia.
Qed.

Lemma set_m_choice_seen_range (b : bool) (flags : Z) :
  is_uint32 flags → is_uint32 (set_m_choice_seen b flags).
Proof.
  rewrite !is_uint32_bits. intros [Hx Hbits]. split.
  - unfold set_m_choice_seen, write_bit. destruct b.
    + rewrite Z.setbit_spec'. apply Z.lor_nonneg. split; [done|].
      by compute.
    + rewrite Z.clearbit_spec'. apply Z.ldiff_nonneg. by left.
  - intros i Hi. rewrite testbit_set_m_choice_seen.
    destruct (Z.eqb_spec i 1) as [-> | _]; [lia | by apply Hbits].
Qed.

(** X4: [Set] keeps the members within the range of their C++ types: in a
    store whose nodes hold a [uint16] number of signals and a [uint32] flag
    word, the nodes still do after [Set]. *)
Theorem X4_Set_keeps_ranges (this : nat) (parent : option nat) (pos : PathPos)
    (is_choice : bool) (h h' : list CYapfRailNodeT) :
  Forall node_in_range h →
  CYapfRailNodeT_Set this parent pos is_choice h = Some h' →
  Forall node_in_range h'.
Proof.
  intros Hall HS.
  destruct (Set_this_is_Some _ _ _ _ _ _ HS) as [n0 Hthis].
  destruct parent as [p|].
  - destruct (Set_parent_is_Some _ _ _ _ _ _ HS) as [pn Hp].
    rewrite (Set_child _ _ _ _ _ _ _ Hthis Hp) in HS. injection HS as <-.
    apply Forall_insert; [done|].
    destruct (proj1 (Forall_lookup _ _) Hall p pn Hp) as [Hsig Hfl].
    split; simpl; [done | by apply set_m_choice_seen_range].
  - rewrite (Set_root _ _ _ _ _ Hthis) in HS. injection HS as <-.
    apply Forall_insert; [done|].
    split; simpl; [lia|].
    apply set_m_choice_seen_range. unfold is_uint32. lia.
Qed.

End RailYapf.

(** * Instances

    The theorems above at concrete inputs.  Signal types are numbered as
    naturals, with [0] for [SIGTYPE_NORMAL] and [4] for [SIGTYPE_PBS]; the
    base sub-object is a number that [base::Set] resets; the hash table has
    two slots. *)

Lemma C1_hash_is_packed_value_witness :
  key_wf (mkKey 305)
  ∧ (0 ≤ tile (mkPathPos 19 1) < 2 ^ 28)%Z
  ∧ (0 ≤ td (mkPathPos 19 1) < 16)%Z
  ∧ CalcHash (mkKey 305) = 305%Z
  ∧ CalcHash (CYapfRailSegmentKey_of_pos (mkPathPos 19 1)) = 305%Z
  ∧ Dump_tile (CYapfRailSegmentKey_of_pos (mkPathPos 19 1)) = 19%Z
  ∧ Dump_td (CYapfRailSegmentKey_of_pos (mkPathPos 19 1)) = 1%Z.
Proof.
  assert (Hk : key_wf (mkKey 305)) by (unfold key_wf, is_uint32; simpl; lia).
  assert (Ht : (0 ≤ tile (mkPathPos 19 1) < 2 ^ 28)%Z) by (simpl; lia).
  assert (Hd : (0 ≤ td (mkPathPos 19 1) < 16)%Z) by (simpl; lia).
  destruct C1_hash_is_packed_value as (_ & Hkey & _ & Hpos).
  destruct (Hkey (mkKey 305) Hk) as [_ Hsame].
  destruct (Hpos (mkPathPos 19 1) Ht Hd) as (_ & _ & Hhash & Htile & Htd).
  split; [exact Hk|]. split; [exact Ht|]. split; [exact Hd|].
  split; [apply Hsame; simpl; lia|].
  split; [apply Hhash; simpl; lia|].
  split; [exact Htile | exact Htd].
Defined.

Lemma C9_key_equality_iff_hash_equality_witness :
  key_wf (mkKey 305)
  ∧ key_wf (mkKey 306)
  ∧ (CYapfRailSegmentKey_eq (mkKey 305) (mkKey 306) = true
     ↔ CalcHash (mkKey 305) = CalcHash (mkKey 306)).
Proof.
  assert (H1 : key_wf (mkKey 305)) by (unfold key_wf, is_uint32; simpl; lia).
  assert (H2 : key_wf (mkKey 306)) by (unfold key_wf, is_uint32; simpl; lia).
  split; [exact H1|]. split; [exact H2|].
  exact (proj1 (proj2 (C9_key_equality_iff_hash_equality _ _ H1 H2))).
Defined.

Lemma C3_root_defaults_witness :
  [mkNode 7 (Some 3) 9 5%Z 2 2] !! 0 = Some (mkNode 7 (Some 3) 9 5%Z 2 2)
  ∧ ∃ h' n,
      CYapfRailNodeT_Set 0 4 (λ _ _ _ _, 0) 0 None (mkPathPos 19 1) true
        [mkNode 7 (Some 3) 9 5%Z 2 2] = Some h'
      ∧ h' !! 0 = Some n
      ∧ m_num_signals_passed n = 0%Z
      ∧ m_inherited_flags n = 2%Z
      ∧ m_last_red_signal_type n = 0
      ∧ m_last_signal_type n = 4.
Proof.
  split; [reflexivity|].
  destruct (C3_root_defaults 0 4 (λ _ _ _ _, 0) 0 (mkPathPos 19 1) true
              [mkNode 7 (Some 3) 9 5%Z 2 2] _ eq_refl)
    as (h' & n & HS & Hn & Hsig & _ & Hfl & _ & _ & _ & Hred & Hlast).
  exists h', n. repeat split; assumption.
Defined.

Lemma C4_child_copies_parent_witness :
  [mkNode 7 None 3%Z 4%Z 1 2; mkNode 8 (Some 3) 9%Z 5%Z 2 2] !! 1
    = Some (mkNode 8 (Some 3) 9%Z 5%Z 2 2)
  ∧ [mkNode 7 None 3%Z 4%Z 1 2; mkNode 8 (Some 3) 9%Z 5%Z 2 2] !! 0
    = Some (mkNode 7 None 3%Z 4%Z 1 2)
  ∧ ∃ h' n,
      CYapfRailNodeT_Set 0 4 (λ _ _ _ _, 0) 1 (Some 0) (mkPathPos 19 1) true
        [mkNode 7 None 3%Z 4%Z 1 2; mkNode 8 (Some 3) 9%Z 5%Z 2 2] = Some h'
      ∧ h' !! 1 = Some n
      ∧ m_num_signals_passed n = 3%Z
      ∧ m_last_red_signal_type n = 1
      ∧ m_last_signal_type n = 2
      ∧ m_choice_seen (m_inherited_flags n) = true.
Proof.
  split; [reflexivity|]. split; [reflexivity|].
  destruct (C4_child_copies_parent 0 4 (λ _ _ _ _, 0) 1 0 (mkPathPos 19 1) true
              [mkNode 7 None 3%Z 4%Z 1 2; mkNode 8 (Some 3) 9%Z 5%Z 2 2]
              _ _ eq_refl eq_refl)
    as (h' & n & HS & Hn & Hsig & Hred & Hlast & _ & Hch & _).
  exists h', n. repeat split; assumption.
Defined.


Lemma C6_GetLastPos_needs_segment_witness :
  CYapfRailNodeT_Set 0 4 (λ _ _ _ _, 0) 0 None (mkPathPos 19 1) false
    [mkNode 7 (Some 0) 9%Z 5%Z 2 2]
  = Some [mkNode 0 None 0%Z 0%Z 0 4]
  ∧ GetLastPos (mkNode 0 None 0%Z 0%Z 0 4)
      [mkSegment (mkKey 305) (mkPathPos 23 1) 400 (mkPathPos 21 1) 0 None]
    = AssertionFailure
  ∧ m_segment (mkNode 0 (Some 0) 0%Z 0%Z 0 4) = Some 0
  ∧ [mkSegment (mkKey 305) (mkPathPos 23 1) 400 (mkPathPos 21 1) 0 None] !! 0
    = Some (mkSegment (mkKey 305) (mkPathPos 23 1) 400 (mkPathPos 21 1) 0 None)
  ∧ GetLastPos (mkNode 0 (Some 0) 0%Z 0%Z 0 4)
      [mkSegment (mkKey 305) (mkPathPos 23 1) 400 (mkPathPos 21 1) 0 None]
    = Returns (mkPathPos 23 1).
Proof.
  destruct (C6_GetLastPos_needs_segment 0 4 (λ _ _ _ _, 0)) as (Hset & Hnull & Hres).
  assert (HS : CYapfRailNodeT_Set 0 4 (λ _ _ _ _, 0) 0 None (mkPathPos 19 1) false
                 [mkNode 7 (Some 0) 9%Z 5%Z 2 2]
               = Some [mkNode 0 None 0%Z 0%Z 0 4]) by reflexivity.
  split; [exact HS|].
  split.
  - destruct (Hset 0 None _ false _ _
                [mkSegment (mkKey 305) (mkPathPos 23 1) 400 (mkPathPos 21 1) 0 None]
                HS) as (n & Hn & _ & Hfail).
    injection Hn as <-. exact Hfail.
  - split; [reflexivity|]. split; [reflexivity|].
    exact (proj1 (Hres (mkNode 0 (Some 0) 0%Z 0%Z 0 4)
                    [mkSegment (mkKey 305) (mkPathPos 23 1) 400 (mkPathPos 21 1) 0 None]
                    0 _ eq_refl eq_refl)).
Defined.

Lemma C10_Set_overwrites_rail_state_witness :
  [mkNode 7 None 3%Z 4%Z 1 2; mkNode 8 (Some 3) 9%Z 5%Z 2 2] !! 1
    = Some (mkNode 8 (Some 3) 9%Z 5%Z 2 2)
  ∧ [mkNode 1 (Some 6) 0%Z 7%Z 0 0; mkNode 5 None 3%Z 4%Z 1 2] !! 0
    = Some (mkNode 1 (Some 6) 0%Z 7%Z 0 0)
  ∧ [mkNode 7 None 3%Z 4%Z 1 2; mkNode 8 (Some 3) 9%Z 5%Z 2 2] !! 0
    = Some (mkNode 7 None 3%Z 4%Z 1 2)
  ∧ [mkNode 1 (Some 6) 0%Z 7%Z 0 0; mkNode 5 None 3%Z 4%Z 1 2] !! 1
    = Some (mkNode 5 None 3%Z 4%Z 1 2)
  ∧ rail_state (mkNode 7 None 3%Z 4%Z 1 2) = rail_state (mkNode 5 None 3%Z 4%Z 1 2)
  ∧ ∃ h1' h2' n1 n2,
      CYapfRailNodeT_Set 0 4 (λ _ _ _ b, b + 1) 1 (Some 0) (mkPathPos 19 1) true
        [mkNode 7 None 3%Z 4%Z 1 2; mkNode 8 (Some 3) 9%Z 5%Z 2 2] = Some h1'
      ∧ CYapfRailNodeT_Set 0 4 (λ _ _ _ b, b + 1) 0 (Some 1) (mkPathPos 19 1) true
          [mkNode 1 (Some 6) 0%Z 7%Z 0 0; mkNode 5 None 3%Z 4%Z 1 2] = Some h2'
      ∧ h1' !! 1 = Some n1 ∧ h2' !! 0 = Some n2
      ∧ rail_state n1 = rail_state n2.
Proof.
  split; [reflexivity|]. split; [reflexivity|].
  split; [reflexivity|]. split; [reflexivity|]. split; [reflexivity|].
  exact (proj2 (C10_Set_overwrites_rail_state 0 4 (λ _ _ _ b, b + 1))
           1 0 0 1 (mkPathPos 19 1) true
           [mkNode 7 None 3%Z 4%Z 1 2; mkNode 8 (Some 3) 9%Z 5%Z 2 2]
           [mkNode 1 (Some 6) 0%Z 7%Z 0 0; mkNode 5 None 3%Z 4%Z 1 2]
           _ _ _ _ eq_refl eq_refl eq_refl eq_refl eq_refl).
Defined.

Lemma C2_find_or_insert_idempotent_witness :
  let D := mkPathPos 4294967295 255 in
  let S := λ hash : Z, (hash mod 2)%Z in
  let ops1 := [OpResolve (mkKey 16) (mkWalk (mkPathPos 5 0) 400 (mkPathPos 3 0) 1);
               OpFindOrInsert (mkKey 48)] in
  let ops2 := [OpFindOrInsert (mkKey 80);
               OpResolve (mkKey 48) (mkWalk (mkPathPos 9 0) 250 D 2)] in
  let c1 := run_ops D S ops1 cache_empty in
  find_or_insert D S (run_ops D S ops1 cache_empty) (mkKey 16) = (0, c1)
  ∧ find_or_insert D S c1 (mkKey 16) = (0, c1)
  ∧ find_or_insert D S (run_ops D S ops2 c1) (mkKey 16) = (0, run_ops D S ops2 c1)
  ∧ length (segments (run_ops D S ops2 c1)) = 3.
Proof.
  intros D S ops1 ops2 c1.
  assert (Hfirst : find_or_insert D S (run_ops D S ops1 cache_empty) (mkKey 16)
                   = (0, c1)) by (vm_compute; reflexivity).
  destruct (C2_find_or_insert_idempotent D S) as (Hagain & Hlater & _ & _).
  split; [exact Hfirst|].
  split; [exact (Hagain _ _ _ _ Hfirst)|].
  split; [exact (Hlater ops1 ops2 _ _ _ Hfirst)|].
  vm_compute. reflexivity.
Defined.

Lemma C8_completed_segment_immutable_witness :
  let D := mkPathPos 4294967295 255 in
  let S := λ hash : Z, (hash mod 2)%Z in
  let c := run_ops D S [OpResolve (mkKey 16) (mkWalk (mkPathPos 5 0) 400 (mkPathPos 3 0) 1)]
             cache_empty in
  let ops := [OpResolve (mkKey 16) (mkWalk (mkPathPos 9 0) 250 D 2);
              OpFindOrInsert (mkKey 48);
              OpResolve (mkKey 48) (mkWalk (mkPathPos 9 0) 250 D 2)] in
  let seg := mkSegment (mkKey 16) (mkPathPos 5 0) 400 (mkPathPos 3 0) 1 None in
  segments c !! 0 = Some seg
  ∧ m_cost seg ≠ (-1)%Z
  ∧ segments (run_ops D S ops c) !! 0 = Some seg.
Proof.
  intros D S c ops seg.
  assert (Hs : segments c !! 0 = Some seg) by (vm_compute; reflexivity).
  assert (Hc : m_cost seg ≠ (-1)%Z) by (simpl; lia).
  split; [exact Hs|]. split; [exact Hc|].
  exact (C8_completed_segment_immutable D S ops c 0 seg Hs Hc).
Defined.

(** * The text file window *)

Lemma cstr_no_NUL (s : list Z) : char_NUL ∉ cstr s.
Proof.
  induction s as [|c s IH]; simpl; [apply not_elem_of_nil|].
  destruct (Z.eqb_spec c char_NUL) as [-> | Hc]; [apply not_elem_of_nil|].
  apply not_elem_of_cons. by split.
Qed.

Lemma cstr_app (l s : list Z) : char_NUL ∉ l → cstr (l ++ s) = l ++ cstr s.
Proof.
  induction l as [|c l IH]; intros Hl; simpl; [done|].
  apply not_elem_of_cons in Hl as [Hc Hl].
  destruct (Z.eqb_spec c char_NUL) as [-> | _]; [done|].
  by rewrite IH.
Qed.

Lemma cstr_app_NUL (l s : list Z) : char_NUL ∉ l → cstr (l ++ char_NUL :: s) = l.
Proof. intros Hl. rewrite cstr_app by done. simpl. apply app_nil_r. Qed.

Lemma cstr_split (s : list Z) : s = cstr s ++ drop (length (cstr s)) s.
Proof.
  induction s as [|c s IH]; simpl; [done|].
  destruct (Z.eqb_spec c char_NUL) as [-> | _]; [done|].
  simpl. by rewrite <- IH.
Qed.

(** X5: the loop that replaces tabs and carriage returns keeps the length of
    the buffer, turns every tab and carriage return of the C string into a
    space and keeps its other characters, and leaves everything from the
    first [NUL] on as it was, also tabs behind a [NUL] inside the file. *)
Theorem X5_replace_tabs (s : list Z) :
  length (replace_tabs s) = length s
  ∧ cstr (replace_tabs s)
    = ((λ c, if (c =? char_TAB)%Z || (c =? char_CR)%Z then char_SPACE else c)
         <$> cstr s)
  ∧ drop (length (cstr s)) (replace_tabs s) = drop (length (cstr s)) s
  ∧ (char_TAB ∉ cstr (replace_tabs s))
  ∧ (char_CR ∉ cstr (replace_tabs s)).
Proof.
  induction s as [|c s (IHlen & IHstr & IHrest & IHtab & IHcr)]; simpl.
  { repeat split; apply not_elem_of_nil. }
  destruct (Z.eqb_spec c char_NUL) as [-> | Hc]; simpl.
  { repeat split; apply not_elem_of_nil. }
  assert (Hrepl : ((if (c =? char_TAB)%Z || (c =? char_CR)%Z then char_SPACE else c)
                   =? char_NUL)%Z = false).
  { destruct ((c =? char_TAB)%Z || (c =? char_CR)%Z); [done|].
    by apply Z.eqb_neq. }
  rewrite Hrepl. simpl.
  split; [by rewrite IHlen|]. split; [by rewrite IHstr|]. split; [done|].
  split; apply not_elem_of_cons; (split; [|done]).
  - destruct (Z.eqb_spec c char_TAB) as [-> | Ht]; simpl; [done|].
    by destruct (c =? char_CR)%Z.
  - destruct (Z.eqb_spec c char_CR) as [-> | Hr]; simpl; [done|].
    by destruct (c =? char_TAB)%Z.
Qed.

Lemma next_strings_NULL {A : Type} (lines : list A) (gs : GlyphSearcher) (m : nat) :
  gs_iter gs = gs_end gs →
  next_strings m lines gs = (replicate m (Returns None), gs).
Proof.
  intros Hend. induction m as [|m IH]; simpl; [done|].
  unfold NextString. rewrite Hend, Nat.eqb_refl. by rewrite IH.
Qed.

Lemma next_strings_from {A : Type} (lines : list A) (gs : GlyphSearcher) (k m : nat) :
  gs_iter gs + k = gs_end gs →
  gs_end gs ≤ length lines →
  next_strings (k + m) lines gs
  = (((λ line, Returns (Some line)) <$> take k (drop (gs_iter gs) lines))
       ++ replicate m (Returns None),
     {| gs_begin := gs_begin gs; gs_end := gs_end gs; gs_iter := gs_end gs |}).
Proof.
  revert gs. induction k as [|k IH]; intros gs Hk Hlen.
  - simpl. rewrite next_strings_NULL by lia.
    destruct gs as [b e i]. simpl in *. by replace i with e by lia.
  - simpl. unfold NextString.
    destruct (Nat.eqb_spec (gs_iter gs) (gs_end gs)) as [Heq | Hne]; [lia|].
    destruct (lookup_lt_is_Some_2 lines (gs_iter gs)) as [line Hline]; [lia|].
    rewrite Hline, (drop_S _ _ _ Hline). simpl.
    rewrite IH by (simpl; lia). done.
Qed.

(** X6: after [Reset], successive calls of [NextString] return the lines
    from [begin] up to [end], each once and in order, and [NULL] from then
    on, with [iter] left at [end]. *)
Theorem X6_NextString_enumerates {A : Type} (lines : list A) (gs : GlyphSearcher)
    (m : nat) :
  gs_begin gs ≤ gs_end gs →
  gs_end gs ≤ length lines →
  next_strings (gs_end gs - gs_begin gs + m) lines (Reset gs)
  = (((λ line, Returns (Some line))
        <$> take (gs_end gs - gs_begin gs) (drop (gs_begin gs) lines))
       ++ replicate m (Returns None),
     {| gs_begin := gs_begin gs; gs_end := gs_end gs; gs_iter := gs_end gs |}).
Proof.
  intros Hbe Hlen.
  rewrite (next_strings_from lines (Reset gs)); simpl; [done | lia | done].
Qed.

Lemma strchr_Some (s : list Z) (c : Z) (d : nat) :
  strchr s c = Some d →
  ∃ l s', s = l ++ c :: s' ∧ length l = d ∧ (c ∉ l) ∧ (char_NUL ∉ l).
Proof.
  revert d. induction s as [|b s IH]; intros d Hd; simpl in Hd; [done|].
  destruct (Z.eqb_spec b c) as [-> | Hbc].
  { injection Hd as <-. exists [], s. repeat split; apply not_elem_of_nil. }
  destruct (Z.eqb_spec b char_NUL) as [-> | Hb0]; [done|].
  destruct (strchr s c) as [d'|] eqn:Hs; [|done].
  injection Hd as <-.
  destruct (IH d' eq_refl) as (l & s' & -> & Hlen & Hc & H0).
  exists (b :: l), s'. simpl. rewrite Hlen.
  repeat split; apply not_elem_of_cons; split; congruence.
Qed.

Lemma strchr_None (s : list Z) (c : Z) : strchr s c = None → c ∉ cstr s.
Proof.
  induction s as [|b s IH]; intros Hn; simpl in *; [apply not_elem_of_nil|].
  destruct (Z.eqb_spec b c) as [-> | Hbc]; [done|].
  destruct (Z.eqb_spec b char_NUL) as [-> | Hb0]; [apply not_elem_of_nil|].
  destruct (strchr s c) as [d'|] eqn:Hs; [done|].
  apply not_elem_of_cons. split; [congruence | by apply IH].
Qed.

Lemma join_lines_cons (l : list Z) (ls : list (list Z)) :
  ls ≠ [] → join_lines (l :: ls) = l ++ char_LF :: join_lines ls.
Proof. by destruct ls. Qed.

(** The split loop on a buffer [pre ++ rest] with [p] at the start of
    [rest]. *)
Lemma split_lines_loop_spec (filesize : nat) (fuel : nat) (pre rest : list Z)
    (acc : list nat) :
  length pre ≤ filesize →
  (pre ++ rest) !! filesize = Some char_NUL →
  filesize - length pre < fuel →
  ∃ (rest' : list Z) (starts : list nat),
    split_lines_loop fuel filesize (pre ++ rest) (length pre) acc
    = Some (pre ++ rest', acc ++ starts)
    ∧ length rest' = length rest
    ∧ head starts = Some (length pre)
    ∧ Forall (λ a, char_LF ∉ line_at (pre ++ rest') a) starts
    ∧ ((last (cstr rest) = Some char_LF
        ∧ length pre + length (cstr rest) = filesize) →
       join_lines (line_at (pre ++ rest') <$> starts) ++ [char_LF] = cstr rest)
    ∧ (¬ (last (cstr rest) = Some char_LF
          ∧ length pre + length (cstr rest) = filesize) →
       join_lines (line_at (pre ++ rest') <$> starts) = cstr rest).
Proof.
  revert pre rest acc.
  induction fuel as [|fuel IH]; intros pre rest acc Hp Hnul Hfuel; [lia|].
  cbn [split_lines_loop]. rewrite drop_app_length.
  assert (Hline : ∀ l x, char_NUL ∉ l →
                    line_at (pre ++ l ++ char_NUL :: x) (length pre) = l).
  { intros l x Hl. unfold line_at. rewrite drop_app_length.
    by apply cstr_app_NUL. }
  destruct (strchr rest char_LF) as [d|] eqn:Hchr.
  - destruct (strchr_Some _ _ _ Hchr) as (l & s' & -> & Hlen & Hlf & Hl0).
    subst d.
    assert (Hins : <[length pre + length l := char_NUL]> (pre ++ l ++ char_LF :: s')
                   = pre ++ l ++ char_NUL :: s').
    { rewrite insert_app_r. f_equal.
      replace (length l) with (length l + 0) at 1 by lia.
      by rewrite insert_app_r. }
    rewrite Hins.
    assert (Hbelow : S (length pre + length l) ≤ filesize).
    { rewrite lookup_app_r in Hnul by lia.
      destruct (decide (filesize - length pre < length l)) as [Hlt | Hge].
      - rewrite lookup_app_l in Hnul by done.
        exfalso. apply Hl0. by eapply list_elem_of_lookup_2.
      - rewrite lookup_app_r in Hnul by lia.
        destruct (filesize - length pre - length l) as [|k] eqn:Hk; [done | lia]. }
    assert (Hnul' : s' !! (filesize - S (length pre + length l)) = Some char_NUL).
    { rewrite lookup_app_r in Hnul by lia.
      rewrite lookup_app_r in Hnul by lia.
      replace (filesize - length pre - length l)
        with (S (filesize - S (length pre + length l))) in Hnul by lia.
      exact Hnul. }
    assert (Hstr : cstr (l ++ char_LF :: s') = l ++ char_LF :: cstr s').
    { by rewrite cstr_app. }
    rewrite Hstr.
    destruct (Nat.eqb_spec (S (length pre + length l)) filesize) as [Hend | Hmore].
    + (* the newline is the last character of the file *)
      assert (Hs' : cstr s' = []).
      { replace (filesize - S (length pre + length l)) with 0 in Hnul' by lia.
        destruct s' as [|c s']; [done|].
        simpl in Hnul'. injection Hnul' as ->. done. }
      exists (l ++ char_NUL :: s'), [length pre].
      split; [done|].
      split; [rewrite !length_app; done|].
      split; [done|].
      split; [constructor; [by rewrite Hline | constructor]|].
      rewrite Hs'. simpl. rewrite Hline by done.
      split; [done|].
      intros Hn. exfalso. apply Hn.
      split; [apply last_snoc | rewrite length_app; simpl; lia].
    + (* the loop goes on behind the newline *)
      assert (Hpre1 : length (pre ++ l ++ [char_NUL]) = S (length pre + length l)).
      { rewrite !length_app. simpl. lia. }
      assert (Hassoc : ∀ x, pre ++ l ++ char_NUL :: x = (pre ++ l ++ [char_NUL]) ++ x).
      { intros x. by rewrite <- !app_assoc. }
      destruct (IH (pre ++ l ++ [char_NUL]) s' (acc ++ [length pre]))
        as (rest1 & starts1 & Hrun & Hlen1 & Hhead1 & Hall1 & Htrail1 & Hplain1).
      { lia. }
      { rewrite lookup_app_r by lia. by rewrite Hpre1. }
      { lia. }
      rewrite Hpre1 in Hrun. rewrite <- Hassoc in Hrun.
      rewrite <- Hassoc in Hall1, Htrail1, Hplain1.
      exists (l ++ char_NUL :: rest1), (length pre :: starts1).
      split.
      { rewrite Hrun. f_equal. f_equal; [by rewrite <- Hassoc | by rewrite <- app_assoc]. }
      split; [rewrite !length_app; simpl; by rewrite Hlen1|].
      split; [done|].
      split; [constructor; [by rewrite Hline | done]|].
      assert (Hne : line_at (pre ++ l ++ char_NUL :: rest1) <$> starts1 ≠ []).
      { destruct starts1; done. }
      rewrite fmap_cons, (join_lines_cons _ _ Hne), Hline by done.
      assert (Hcond : (last (l ++ char_LF :: cstr s') = Some char_LF
                       ∧ length pre + length (l ++ char_LF :: cstr s') = filesize)
                      ↔ (last (cstr s') = Some char_LF
                         ∧ length (pre ++ l ++ [char_NUL]) + length (cstr s') = filesize)).
      { rewrite Hpre1, length_app. simpl.
        destruct (cstr s') as [|c cs] eqn:Hcs.
        - simpl. split; [intros [_ Hl]; lia | intros [Hl _]; done].
        - rewrite last_app_cons, last_cons_cons. split; intros [Hl Hn]; split; try done; simpl in *; lia. }
      split.
      * intros Hc. apply Hcond in Hc. rewrite <- (Htrail1 Hc).
        by rewrite <- app_assoc.
      * intros Hc. rewrite Hcond in Hc. by rewrite (Hplain1 Hc).
  - exists rest, [length pre].
    split; [done|]. split; [done|]. split; [done|].
    assert (Hl : line_at (pre ++ rest) (length pre) = cstr rest).
    { unfold line_at. by rewrite drop_app_length. }
    split; [constructor; [rewrite Hl; by apply strchr_None | constructor]|].
    simpl. rewrite Hl. split; [|done].
    intros [Hlast _]. exfalso.
    apply (strchr_None _ _ Hchr). by eapply last_Some_elem_of.
Qed.

Lemma split_lines_spec (filesize : nat) (text : list Z) (p : nat) :
  p ≤ filesize →
  text !! filesize = Some char_NUL →
  ∃ (text' : list Z) (lines : list nat),
    split_lines filesize text p = Some (text', lines)
    ∧ length text' = length text
    ∧ take p text' = take p text
    ∧ head lines = Some p
    ∧ Forall (λ a, char_LF ∉ line_at text' a) lines
    ∧ ((last (line_at text p) = Some char_LF
        ∧ p + length (line_at text p) = filesize) →
       join_lines (line_at text' <$> lines) ++ [char_LF] = line_at text p)
    ∧ (¬ (last (line_at text p) = Some char_LF
          ∧ p + length (line_at text p) = filesize) →
       join_lines (line_at text' <$> lines) = line_at text p).
Proof.
  intros Hp Hnul.
  pose proof (lookup_lt_Some _ _ _ Hnul) as Hlt.
  assert (Hlen : length (take p text) = p) by (apply length_take_le; lia).
  destruct (split_lines_loop_spec filesize (S (length text)) (take p text)
              (drop p text) [])
    as (rest' & starts & Hrun & Hlen' & Hhead & Hall & Htrail & Hplain).
  { lia. }
  { by rewrite take_drop. }
  { lia. }
  rewrite take_drop, Hlen in Hrun. rewrite Hlen in Hhead, Htrail, Hplain.
  exists (take p text ++ rest'), starts.
  split; [exact Hrun|].
  split.
  { rewrite length_app, Hlen', <- length_app. by rewrite take_drop. }
  split; [by apply take_app_length'|].
  split; [exact Hhead|].
  split; [exact Hall|].
  split; [exact Htrail | exact Hplain].
Qed.

(** X7: the loop that splits the text on newlines ends, for a buffer with
    its terminating [NUL] at [filesize] and [p] not behind it.  It leaves
    the buffer before [p] and the length of the buffer as they were; the
    first line starts at [p]; no line contains a newline; and the lines,
    put together with newlines between them, are the text that was at [p],
    except that one newline that is the very last character of the file
    does not start a further, empty line. *)
Theorem X7_split_lines (filesize : nat) (text : list Z) (p : nat) :
  p ≤ filesize →
  text !! filesize = Some char_NUL →
  ∃ (text' : list Z) (lines : list nat),
    split_lines filesize text p = Some (text', lines)
    ∧ length text' = length text
    ∧ take p text' = take p text
    ∧ head lines = Some p
    ∧ Forall (λ a, char_LF ∉ line_at text' a) lines
    ∧ ((last (line_at text p) = Some char_LF
        ∧ p + length (line_at text p) = filesize) →
       join_lines (line_at text' <$> lines) ++ [char_LF] = line_at text p)
    ∧ (¬ (last (line_at text p) = Some char_LF
          ∧ p + length (line_at text p) = filesize) →
       join_lines (line_at text' <$> lines) = line_at text p).
Proof. apply split_lines_spec. Qed.

Lemma X1_node_key_hash_round_trip_witness :
  is_int32 (-5)
  ∧ is_int32 305
  ∧ CalcHash (CYapfRailSegmentKey_Set_node_key (-5) (mkKey 77)) = (-5)%Z
  ∧ (CYapfRailSegmentKey_eq (CYapfRailSegmentKey_Set_node_key (-5) (mkKey 77))
       (CYapfRailSegmentKey_Set_node_key 305 (mkKey 0)) = true ↔ (-5)%Z = 305%Z).
Proof.
  assert (H1 : is_int32 (-5)) by (unfold is_int32; lia).
  assert (H2 : is_int32 305) by (unfold is_int32; lia).
  destruct (X1_node_key_hash_round_trip (-5) 305 (mkKey 77) (mkKey 0) H1 H2)
    as (Hrt & _ & _ & Heq).
  split; [exact H1|]. split; [exact H2|]. split; [exact Hrt | exact Heq].
Defined.

Lemma X2_key_Dump_lossless_witness :
  key_wf (mkKey 4294967295)
  ∧ key_wf (mkKey 305)
  ∧ Dump_td (mkKey 4294967295) = 15%Z
  ∧ Dump_tile (mkKey 4294967295) = 268435455%Z
  ∧ m_value (mkKey 4294967295)
    = Z.lor (Z.shiftl (Dump_tile (mkKey 4294967295)) 4) (Dump_td (mkKey 4294967295)).
Proof.
  assert (H1 : key_wf (mkKey 4294967295)) by (unfold key_wf, is_uint32; simpl; lia).
  assert (H2 : key_wf (mkKey 305)) by (unfold key_wf, is_uint32; simpl; lia).
  destruct (X2_key_Dump_lossless (mkKey 4294967295) (mkKey 305) H1 H2)
    as (_ & _ & Hpack & _).
  split; [exact H1|]. split; [exact H2|].
  split; [reflexivity|]. split; [reflexivity | exact Hpack].
Defined.

Lemma X3_Set_leaves_other_nodes_witness :
  CYapfRailNodeT_Set 0 4 (λ _ _ _ _, 0) 1 (Some 0) (mkPathPos 19 1) true
    [mkNode 7 None 3%Z 4%Z 1 2; mkNode 8 (Some 3) 9%Z 5%Z 2 2]
  = Some [mkNode 7 None 3%Z 4%Z 1 2; mkNode 0 None 3%Z 6%Z 1 2]
  ∧ [mkNode 7 None 3%Z 4%Z 1 2; mkNode 0 None 3%Z 6%Z 1 2] !! 0
    = [mkNode 7 None 3%Z 4%Z 1 2; mkNode 8 (Some 3) 9%Z 5%Z 2 2] !! 0.
Proof.
  assert (HS : CYapfRailNodeT_Set 0 4 (λ _ _ _ _, 0) 1 (Some 0) (mkPathPos 19 1) true
                 [mkNode 7 None 3%Z 4%Z 1 2; mkNode 8 (Some 3) 9%Z 5%Z 2 2]
               = Some [mkNode 7 None 3%Z 4%Z 1 2; mkNode 0 None 3%Z 6%Z 1 2])
    by reflexivity.
  split; [exact HS|].
  destruct (X3_Set_leaves_other_nodes 0 4 (λ _ _ _ _, 0) _ _ _ _ _ _ HS)
    as (_ & _ & Hparent).
  apply (Hparent 0); [reflexivity | lia].
Defined.

Lemma X4_Set_keeps_ranges_witness :
  Forall node_in_range [mkNode 7 None 3%Z 4%Z 1 2; mkNode 8 (Some 3) 9%Z 5%Z 2 2]
  ∧ CYapfRailNodeT_Set 0 4 (λ _ _ _ _, 0) 1 (Some 0) (mkPathPos 19 1) true
      [mkNode 7 None 3%Z 4%Z 1 2; mkNode 8 (Some 3) 9%Z 5%Z 2 2]
    = Some [mkNode 7 None 3%Z 4%Z 1 2; mkNode 0 None 3%Z 6%Z 1 2]
  ∧ Forall node_in_range [mkNode 7 None 3%Z 4%Z 1 2; mkNode 0 None 3%Z 6%Z 1 2].
Proof.
  assert (Hall : Forall node_in_range
                   [mkNode 7 None 3%Z 4%Z 1 2; mkNode 8 (Some 3) 9%Z 5%Z 2 2]).
  { repeat constructor; simpl; unfold is_uint32; lia. }
  assert (HS : CYapfRailNodeT_Set 0 4 (λ _ _ _ _, 0) 1 (Some 0) (mkPathPos 19 1) true
                 [mkNode 7 None 3%Z 4%Z 1 2; mkNode 8 (Some 3) 9%Z 5%Z 2 2]
               = Some [mkNode 7 None 3%Z 4%Z 1 2; mkNode 0 None 3%Z 6%Z 1 2])
    by reflexivity.
  split; [exact Hall|]. split; [exact HS|].
  exact (X4_Set_keeps_ranges 0 4 (λ _ _ _ _, 0) _ _ _ _ _ _ Hall HS).
Defined.

Lemma X6_NextString_enumerates_witness :
  gs_begin (mkGlyphSearcher 1 3 2) ≤ gs_end (mkGlyphSearcher 1 3 2)
  ∧ gs_end (mkGlyphSearcher 1 3 2) ≤ length [10; 20; 30; 40]
  ∧ next_strings 4 [10; 20; 30; 40] (Reset (mkGlyphSearcher 1 3 2))
    = ([Returns (Some 20); Returns (Some 30); Returns None; Returns None],
       mkGlyphSearcher 1 3 3).
Proof.
  assert (H1 : gs_begin (mkGlyphSearcher 1 3 2) ≤ gs_end (mkGlyphSearcher 1 3 2))
    by (simpl; lia).
  assert (H2 : gs_end (mkGlyphSearcher 1 3 2) ≤ length [10; 20; 30; 40])
    by (simpl; lia).
  split; [exact H1|]. split; [exact H2|].
  exact (X6_NextString_enumerates [10; 20; 30; 40] (mkGlyphSearcher 1 3 2) 2 H1 H2).
Defined.

Lemma X7_split_lines_witness :
  2 ≤ 8
  ∧ [9; 9; 97; 98; 10; 99; 100; 10; 0]%Z !! 8 = Some char_NUL
  ∧ ∃ text' lines,
      split_lines 8 [9; 9; 97; 98; 10; 99; 100; 10; 0]%Z 2 = Some (text', lines)
      ∧ head lines = Some 2
      ∧ join_lines (line_at text' <$> lines) ++ [char_LF]
        = line_at [9; 9; 97; 98; 10; 99; 100; 10; 0]%Z 2.
Proof.
  assert (Hp : 2 ≤ 8) by lia.
  split; [exact Hp|]. split; [reflexivity|].
  destruct (X7_split_lines 8 [9; 9; 97; 98; 10; 99; 100; 10; 0]%Z 2 Hp eq_refl)
    as (text' & lines & Hrun & _ & _ & Hhead & _ & Htrail & _).
  exists text', lines.
  split; [exact Hrun|]. split; [exact Hhead|].
  apply Htrail. split; reflexivity.
Defined.

(** * The description of a text file *)

Lemma strrchr_Some (s : list Ascii.ascii) (c : Ascii.ascii) (i : nat) :
  strrchr s c = Some i → s !! i = Some c ∧ (c ∉ drop (S i) s).
Proof.
  revert i. induction s as [|b s IH]; intros i Hi; simpl in Hi; [done|].
  destruct (strrchr s c) as [j|] eqn:Hj.
  - injection Hi as <-. destruct (IH j eq_refl) as [Hc Hlast]. by split.
  - destruct (Ascii.eqb_spec b c) as [-> | Hbc]; [|done].
    injection Hi as <-. split; [done|]. simpl. rewrite drop_0.
    clear IH. induction s as [|b' s IH]; [apply not_elem_of_nil|].
    simpl in Hj. destruct (strrchr s c) as [j|]; [done|].
    destruct (Ascii.eqb_spec b' c) as [-> | Hb']; [done|].
    apply not_elem_of_cons. split; [congruence | by apply IH].
Qed.

Lemma strrchr_None (s : list Ascii.ascii) (c : Ascii.ascii) :
  strrchr s c = None → c ∉ s.
Proof.
  induction s as [|b s IH]; intros Hn; simpl in Hn; [apply not_elem_of_nil|].
  destruct (strrchr s c) as [j|]; [done|].
  destruct (Ascii.eqb_spec b c) as [-> | Hb]; [done|].
  apply not_elem_of_cons. split; [congruence | by apply IH].
Qed.

Lemma stringb_fit_id (capacity : nat) (s : list Ascii.ascii) :
  length s < capacity → stringb_fit capacity s = s.
Proof. intros Hs. unfold stringb_fit. apply take_ge. lia. Qed.

Lemma prefixes_length (type : nat) (prefix : list Ascii.ascii) :
  prefixes !! type = Some prefix → length prefix ≤ 9.
Proof.
  intros Hp. destruct type as [|[|[|type]]]; simpl in Hp; try done;
    injection Hp as <-; simpl; lia.
Qed.

Lemma exts_length (with_zlib with_lzma : bool) (e : list Ascii.ascii) :
  e ∈ exts with_zlib with_lzma → length e ≤ 6.
Proof.
  intros He. destruct with_zlib, with_lzma; simpl in He;
    repeat (apply elem_of_cons in He as [-> | He]; [simpl; lia|]);
    by apply elem_of_nil in He.
Qed.

Lemma candidates_of_ext_length (iso base e c : list Ascii.ascii) :
  c ∈ candidates_of_ext iso base e →
  length c ≤ length base + 1 + length iso + 1 + length e.
Proof.
  intros Hc. unfold candidates_of_ext in Hc.
  pose proof (length_take_le' := length_take iso 2).
  repeat (apply elem_of_cons in Hc as [-> | Hc];
          [rewrite !length_app; simpl; rewrite ?length_take; lia|]).
  by apply elem_of_nil in Hc.
Qed.

Lemma candidate_fits (iso : list Ascii.ascii) (with_zlib with_lzma : bool)
    (type : nat) (filename prefix : list Ascii.ascii) (slash : nat)
    (c : list Ascii.ascii) :
  prefixes !! type = Some prefix →
  length iso ≤ 8 →
  c ∈ candidates iso (take (slash + 1) filename ++ prefix) (exts with_zlib with_lzma) →
  length (take (slash + 1) filename ++ prefix) + 1 ≤ alloc_size slash
  ∧ length c + 1 ≤ alloc_size slash.
Proof.
  intros Hprefix Hiso Hc.
  pose proof (prefixes_length _ _ Hprefix) as Hp.
  assert (Hbase : length (take (slash + 1) filename ++ prefix) ≤ slash + 1 + 9).
  { rewrite length_app, length_take. lia. }
  unfold candidates in Hc. apply list_elem_of_bind in Hc as (e & Hc & He).
  apply exts_length in He. apply candidates_of_ext_length in Hc.
  unfold alloc_size. lia.
Qed.

(** X8: the buffer that the constructor of [TextfileDesc] allocates is
    large enough: with a known type of text file and a language code of at
    most 8 characters, the base and every file name that the loop tries fit
    into it with their terminator, so nothing is ever cut off. *)
Theorem X8_TextfileDesc_buffer_fits (iso : list Ascii.ascii)
    (with_zlib with_lzma : bool) (type : nat) (filename prefix : list Ascii.ascii)
    (slash : nat) (c : list Ascii.ascii) :
  prefixes !! type = Some prefix →
  length iso ≤ 8 →
  c ∈ candidates iso (take (slash + 1) filename ++ prefix) (exts with_zlib with_lzma) →
  length (take (slash + 1) filename ++ prefix) + 1 ≤ alloc_size slash
  ∧ length c + 1 ≤ alloc_size slash
  ∧ stringb_fit (alloc_size slash) (take (slash + 1) filename ++ prefix)
    = take (slash + 1) filename ++ prefix
  ∧ stringb_fit (alloc_size slash) c = c.
Proof.
  intros Hprefix Hiso Hc.
  destruct (candidate_fits _ _ _ _ _ _ _ _ Hprefix Hiso Hc) as [Hb Hfit].
  split; [exact Hb|]. split; [exact Hfit|].
  split; apply stringb_fit_id; lia.
Qed.

Lemma try_exts_find (FioCheckFileExists : list Ascii.ascii → bool)
    (iso : list Ascii.ascii) (capacity : nat) (base : list Ascii.ascii)
    (es : list (list Ascii.ascii)) :
  try_exts FioCheckFileExists iso capacity base es
  = find FioCheckFileExists (stringb_fit capacity <$> candidates iso base es).
Proof.
  induction es as [|e es IH]; [done|].
  unfold candidates. rewrite bind_cons, fmap_app. simpl.
  destruct (FioCheckFileExists _); [done|].
  destruct (FioCheckFileExists _); [done|].
  destruct (FioCheckFileExists _); [done|].
  exact IH.
Qed.

Lemma fmap_id_on {A : Type} (f : A → A) (l : list A) :
  (∀ x, x ∈ l → f x = x) → f <$> l = l.
Proof.
  induction l as [|x l IH]; intros Hf; [done|].
  rewrite fmap_cons, Hf, IH; [done | | apply list_elem_of_here].
  intros y Hy. apply Hf. by apply list_elem_of_further.
Qed.

Lemma find_first {A : Type} (f : A → bool) (l : list A) :
  match find f l with
  | Some x => ∃ l1 l2, l = l1 ++ x :: l2 ∧ f x = true ∧ Forall (λ y, f y = false) l1
  | None => Forall (λ y, f y = false) l
  end.
Proof.
  induction l as [|y l IH]; simpl; [constructor|].
  destruct (f y) eqn:Hy.
  - exists [], l. by repeat split.
  - destruct (find f l) as [x|].
    + destruct IH as (l1 & l2 & -> & Hx & Hl1).
      exists (y :: l1), l2. repeat split; [done|]. by constructor.
    + by constructor.
Qed.

(** X9: the path that the constructor of [TextfileDesc] chooses.  Without a
    file name, or with a file name without a path separator, it is [NULL].
    Otherwise, for a known type and a language code of at most 8 characters,
    the names tried start with the file name up to its last separator and
    the prefix of the type; the path is the first of them that exists, in
    the order of the loop (for each extension: full language code, its first
    two characters, no language), and [NULL] exactly when none exists. *)
Theorem X9_TextfileDesc_first_existing (FioCheckFileExists : list Ascii.ascii → bool)
    (iso : list Ascii.ascii) (PATHSEPCHAR : Ascii.ascii) (with_zlib with_lzma : bool)
    (type : nat) (filename prefix : list Ascii.ascii) (slash : nat) :
  strrchr filename PATHSEPCHAR = Some slash →
  prefixes !! type = Some prefix →
  length iso ≤ 8 →
  let base := take (slash + 1) filename ++ prefix in
  let cs := candidates iso base (exts with_zlib with_lzma) in
  let path := TextfileDesc_path FioCheckFileExists iso PATHSEPCHAR with_zlib with_lzma
                type (Some filename) in
  filename !! slash = Some PATHSEPCHAR
  ∧ (PATHSEPCHAR ∉ drop (S slash) filename)
  ∧ path = Returns (find FioCheckFileExists cs)
  ∧ (∀ p, path = Returns (Some p) →
       ∃ before after, cs = before ++ p :: after
         ∧ FioCheckFileExists p = true
         ∧ Forall (λ c, FioCheckFileExists c = false) before)
  ∧ (path = Returns None ↔ Forall (λ c, FioCheckFileExists c = false) cs)
  ∧ TextfileDesc_path FioCheckFileExists iso PATHSEPCHAR with_zlib with_lzma type None
    = Returns None
  ∧ (∀ name, PATHSEPCHAR ∉ name →
       TextfileDesc_path FioCheckFileExists iso PATHSEPCHAR with_zlib with_lzma type
         (Some name) = Returns None).
Proof.
  intros Hslash Hprefix Hiso base cs path.
  destruct (strrchr_Some _ _ _ Hslash) as [Hsep Hlast].
  assert (Hpath : path = Returns (find FioCheckFileExists cs)).
  { subst path. unfold TextfileDesc_path. rewrite Hslash, Hprefix.
    rewrite try_exts_find. f_equal. f_equal.
    assert (Hbase : stringb_fit (alloc_size slash) (take (slash + 1) filename ++ prefix)
                    = base).
    { apply stringb_fit_id. subst base.
      pose proof (prefixes_length _ _ Hprefix).
      rewrite length_app, length_take. unfold alloc_size. lia. }
    rewrite Hbase. apply fmap_id_on. intros c Hc. apply stringb_fit_id.
    destruct (candidate_fits _ _ _ _ _ _ _ _ Hprefix Hiso Hc) as [_ Hfit]. lia. }
  assert (Hnosep : ∀ name, PATHSEPCHAR ∉ name →
            TextfileDesc_path FioCheckFileExists iso PATHSEPCHAR with_zlib with_lzma
              type (Some name) = Returns None).
  { intros name Hname. unfold TextfileDesc_path.
    destruct (strrchr name PATHSEPCHAR) as [i|] eqn:Hi; [|done].
    destruct (strrchr_Some _ _ _ Hi) as [Hin _].
    exfalso. apply Hname. by eapply list_elem_of_lookup_2. }
  split; [exact Hsep|]. split; [exact Hlast|]. split; [exact Hpath|].
  split; [|split; [|split; [done | exact Hnosep]]].
  - clearbody path cs. subst path. intros p Hp. injection Hp as Hp.
    pose proof (find_first FioCheckFileExists cs) as Hfind.
    destruct (find FioCheckFileExists cs) as [x|]; [|done].
    injection Hp as ->. exact Hfind.
  - clearbody path cs. subst path.
    pose proof (find_first FioCheckFileExists cs) as Hfind.
    destruct (find FioCheckFileExists cs) as [x|].
    + split; [done|]. intros Hall. exfalso.
      destruct Hfind as (l1 & l2 & -> & Hx & _).
      apply Forall_app in Hall as [_ Hall].
      apply Forall_cons in Hall as [Hx' _]. congruence.
    + by split.
Qed.

Lemma X8_TextfileDesc_buffer_fits_witness :
  let L := String.list_ascii_of_string in
  prefixes !! 1 = Some (L "changelog")
  ∧ length (L "en_GB") ≤ 8
  ∧ L "data/changelog_en.txt.gz"
    ∈ candidates (L "en_GB") (take (4 + 1) (L "data/base.grf") ++ L "changelog")
        (exts true false)
  ∧ length (L "data/changelog_en.txt.gz") + 1 ≤ alloc_size 4
  ∧ stringb_fit (alloc_size 4) (L "data/changelog_en.txt.gz")
    = L "data/changelog_en.txt.gz".
Proof.
  intros L.
  assert (Hp : prefixes !! 1 = Some (L "changelog")) by reflexivity.
  assert (Hi : length (L "en_GB") ≤ 8) by (simpl; lia).
  assert (Hc : L "data/changelog_en.txt.gz"
               ∈ candidates (L "en_GB") (take (4 + 1) (L "data/base.grf") ++ L "changelog")
                   (exts true false)).
  { apply (list_elem_of_lookup_2 _ 4). reflexivity. }
  destruct (X8_TextfileDesc_buffer_fits (L "en_GB") true false 1 (L "data/base.grf")
              (L "changelog") 4 (L "data/changelog_en.txt.gz") Hp Hi Hc)
    as (_ & Hlen & _ & Hfit).
  split; [exact Hp|]. split; [exact Hi|]. split; [exact Hc|].
  split; [exact Hlen | exact Hfit].
Defined.

Lemma X9_TextfileDesc_first_existing_witness :
  let L := String.list_ascii_of_string in
  let E := λ name : list Ascii.ascii,
             bool_decide (name = L "data/readme.txt")
             || bool_decide (name = L "data/readme_en.txt") in
  strrchr (L "data/base.grf") (Ascii.ascii_of_nat 47) = Some 4
  ∧ prefixes !! 0 = Some (L "readme")
  ∧ length (L "en_GB") ≤ 8
  ∧ TextfileDesc_path E (L "en_GB") (Ascii.ascii_of_nat 47) true true 0
      (Some (L "data/base.grf"))
    = Returns (Some (L "data/readme_en.txt")).
Proof.
  intros L E.
  assert (Hs : strrchr (L "data/base.grf") (Ascii.ascii_of_nat 47) = Some 4)
    by reflexivity.
  assert (Hp : prefixes !! 0 = Some (L "readme")) by reflexivity.
  assert (Hi : length (L "en_GB") ≤ 8) by (simpl; lia).
  destruct (X9_TextfileDesc_first_existing E (L "en_GB") (Ascii.ascii_of_nat 47)
              true true 0 (L "data/base.grf") (L "readme") 4 Hs Hp Hi)
    as (_ & _ & Hpath & _).
  split; [exact Hs|]. split; [exact Hp|]. split; [exact Hi|].
  rewrite Hpath. vm_compute. reflexivity.
Defined.

Lemma strncmp_eq_cons (x : Z) (l s : list Z) (n : nat) :
  x ≠ char_NUL →
  strncmp_eq (x :: l) s (S n) = true ↔ ∃ s', s = x :: s' ∧ strncmp_eq l s' n = true.
Proof.
  intros Hx. destruct s as [|a s']; cbn [strncmp_eq].
  - split; [done | by intros (s' & ? & _)].
  - destruct (Z.eqb_spec x a) as [<- | Hne].
    + destruct (Z.eqb_spec x char_NUL) as [-> | _]; [done|].
      split; [intros Hc; by exists s' | by intros (s'' & [= <-] & Hc)].
    + split; [done | intros (s'' & [= ->] & _); done].
Qed.

Lemma strncmp_eq_bom (s : list Z) :
  strncmp_eq utf8_bom s 3 = true ↔ ∃ rest, s = 239%Z :: 187%Z :: 191%Z :: rest.
Proof.
  unfold utf8_bom.
  rewrite strncmp_eq_cons by done.
  setoid_rewrite strncmp_eq_cons; [|done].
  setoid_rewrite strncmp_eq_cons; [|done].
  split.
  - intros (s1 & -> & s2 & -> & s3 & -> & _). by exists s3.
  - intros (rest & ->). eexists. split; [done|]. eexists. split; [done|].
    eexists. by split.
Qed.

(** X10: the check for the byte-order-mark never moves [p] behind the
    terminating [NUL] of the buffer: [p] stays or moves on by 3, it moves
    exactly when the three bytes EF BB BF are at [p], and the loop that
    replaces tabs, which runs before the check, neither hides nor fakes a
    byte-order-mark at the start of the text. *)
Theorem X10_skip_bom_in_bounds (filesize : nat) (text : list Z) (p : nat) :
  p ≤ filesize →
  text !! filesize = Some char_NUL →
  p ≤ skip_bom text p ≤ filesize
  ∧ (skip_bom text p = p ∨ skip_bom text p = p + 3)
  ∧ (skip_bom text p = p + 3 ↔ take 3 (drop p text) = [239; 187; 191]%Z)
  ∧ skip_bom (replace_tabs text) 0 = skip_bom text 0.
Proof.
  intros Hp Hnul. unfold skip_bom.
  assert (Hat : (drop p text) !! (filesize - p) = Some char_NUL).
  { rewrite lookup_drop. by replace (p + (filesize - p)) with filesize by lia. }
  split; [|split; [|split]].
  - destruct (strncmp_eq utf8_bom (drop p text) 3) eqn:Hcmp; [|lia].
    apply strncmp_eq_bom in Hcmp as [rest Hrest]. rewrite Hrest in Hat.
    destruct (filesize - p) as [|[|[|k]]] eqn:Hk; simpl in Hat; try done; lia.
  - destruct (strncmp_eq utf8_bom (drop p text) 3); [by right | by left].
  - destruct (strncmp_eq utf8_bom (drop p text) 3) eqn:Hcmp.
    + apply strncmp_eq_bom in Hcmp as [rest Hrest]. rewrite Hrest. by split.
    + split; [lia|]. intros Htake. exfalso.
      assert (Hyes : strncmp_eq utf8_bom (drop p text) 3 = true); [|congruence].
      apply strncmp_eq_bom.
      destruct (drop p text) as [|a [|b [|c rest]]]; simpl in Htake; try done.
      injection Htake as -> -> ->. by exists rest.
  - rewrite !drop_0.
    assert (Hsame : strncmp_eq utf8_bom (replace_tabs text) 3
                    = strncmp_eq utf8_bom text 3); [|by rewrite Hsame].
    apply eq_true_iff_eq. rewrite !strncmp_eq_bom. split.
    + intros [rest Hrest].
      destruct text as [|a [|b [|c text]]]; simpl in Hrest;
        repeat match type of Hrest with
               | context [(?x =? ?y)%Z] => destruct (Z.eqb_spec x y) as [-> | ?]
               end; simpl in Hrest; try done.
      injection Hrest as -> -> -> _. by eexists.
    + intros [rest ->]. by eexists.
Qed.

Lemma X10_skip_bom_in_bounds_witness :
  0 ≤ 5
  ∧ [239; 187; 191; 97; 10; 0]%Z !! 5 = Some char_NUL
  ∧ skip_bom [239; 187; 191; 97; 10; 0]%Z 0 = 3
  ∧ 0 ≤ skip_bom [239; 187; 191; 97; 10; 0]%Z 0 ≤ 5.
Proof.
  assert (Hp : 0 ≤ 5) by lia.
  destruct (X10_skip_bom_in_bounds 5 [239; 187; 191; 97; 10; 0]%Z 0 Hp eq_refl)
    as (Hbound & _ & _ & _).
  split; [exact Hp|]. split; [reflexivity|]. split; [reflexivity | exact Hbound].
Defined.

Lemma replace_tabs_terminated (content : list Z) :
  char_NUL ∉ content →
  replace_tabs (content ++ [char_NUL])
  = ((λ c, if (c =? char_TAB)%Z || (c =? char_CR)%Z then char_SPACE else c)
       <$> content) ++ [char_NUL]
  ∧ (char_NUL ∉ (λ c, if (c =? char_TAB)%Z || (c =? char_CR)%Z then char_SPACE else c)
                  <$> content).
Proof.
  induction content as [|c content IH]; intros Hc.
  - split; [done | apply not_elem_of_nil].
  - apply not_elem_of_cons in Hc as [Hc0 Hc].
    destruct (IH Hc) as [IHeq IHnul]. simpl.
    destruct (Z.eqb_spec c char_NUL) as [-> | _]; [done|].
    rewrite IHeq. split; [done|].
    apply not_elem_of_cons. split; [|done].
    destruct ((c =? char_TAB)%Z || (c =? char_CR)%Z); [done | congruence].
Qed.

Lemma skip_bom_le (filesize : nat) (text : list Z) (p : nat) :
  p ≤ filesize → text !! filesize = Some char_NUL → skip_bom text p ≤ filesize.
Proof.
  intros Hp Hnul. unfold skip_bom.
  destruct (strncmp_eq utf8_bom (drop p text) 3) eqn:Hcmp; [|lia].
  apply strncmp_eq_bom in Hcmp as [rest Hrest].
  assert (Hat : (drop p text) !! (filesize - p) = Some char_NUL).
  { rewrite lookup_drop. by replace (p + (filesize - p)) with filesize by lia. }
  rewrite Hrest in Hat.
  destruct (filesize - p) as [|[|[|k]]] eqn:Hk; simpl in Hat; try done; lia.
Qed.

(** X11: what the constructor of [TextfileWindow] makes of a file without
    [NUL] bytes whose text the validation leaves as it is: the lines, put
    together with newlines between them, are the content of the file with
    tabs and carriage returns turned into spaces and without the
    byte-order-mark, a newline at the very end of the file does not start a
    further line, there is at least one line, and no line contains a
    newline. *)
Theorem X11_load_lines (str_validate : list Z → nat → nat → list Z)
    (content : list Z) :
  char_NUL ∉ content →
  let normal := (λ c, if (c =? char_TAB)%Z || (c =? char_CR)%Z then char_SPACE else c)
                  <$> content in
  let p := skip_bom (normal ++ [char_NUL]) 0 in
  str_validate (normal ++ [char_NUL]) p (length content) = normal ++ [char_NUL] →
  ∃ (text' : list Z) (lines : list nat),
    load_lines str_validate content = Some (text', lines)
    ∧ head lines = Some p
    ∧ Forall (λ a, char_LF ∉ line_at text' a) lines
    ∧ (last (drop p normal) = Some char_LF →
       join_lines (line_at text' <$> lines) ++ [char_LF] = drop p normal)
    ∧ (last (drop p normal) ≠ Some char_LF →
       join_lines (line_at text' <$> lines) = drop p normal).
Proof.
  intros Hc normal p Hsv.
  destruct (replace_tabs_terminated content Hc) as [Hrt Hnul].
  fold normal in Hrt, Hnul.
  assert (Hlen : length normal = length content) by apply length_fmap.
  assert (Hterm : (normal ++ [char_NUL]) !! length content = Some char_NUL).
  { rewrite <- Hlen. by apply list_lookup_middle. }
  assert (Hp : p ≤ length content).
  { apply skip_bom_le; [lia | exact Hterm]. }
  assert (Hline : line_at (normal ++ [char_NUL]) p = drop p normal).
  { unfold line_at. rewrite drop_app_le by lia.
    apply cstr_app_NUL. intros Hin. apply Hnul.
    by apply (subseteq_drop p normal). }
  destruct (split_lines_spec (length content) (normal ++ [char_NUL]) p Hp Hterm)
    as (text' & lines & Hrun & _ & _ & Hhead & Hall & Htrail & Hplain).
  rewrite Hline in Htrail, Hplain.
  assert (Hend : p + length (drop p normal) = length content).
  { rewrite length_drop. lia. }
  exists text', lines.
  split.
  { unfold load_lines. rewrite Hrt. fold p. by rewrite Hsv. }
  split; [exact Hhead|]. split; [exact Hall|].
  split.
  - intros Hlast. by apply Htrail.
  - intros Hlast. apply Hplain. by intros [Hl _].
Qed.

Lemma X11_load_lines_witness :
  let content := [239; 187; 191; 97; 9; 98; 13; 10; 99; 10]%Z in
  (char_NUL ∉ content)
  ∧ load_lines (λ text _ _, text) content
    = Some ([239; 187; 191; 97; 32; 98; 32; 0; 99; 0; 0]%Z, [3; 8])
  ∧ ∃ text' lines,
      load_lines (λ text _ _, text) content = Some (text', lines)
      ∧ join_lines (line_at text' <$> lines) ++ [char_LF] = [97; 32; 98; 32; 10; 99; 10]%Z.
Proof.
  intros content.
  assert (Hc : char_NUL ∉ content).
  { unfold content, char_NUL. intros Hin.
    repeat (apply elem_of_cons in Hin as [Hin | Hin]; [done|]).
    by apply elem_of_nil in Hin. }
  split; [exact Hc|]. split; [reflexivity|].
  destruct (X11_load_lines (λ text _ _, text) content Hc eq_refl)
    as (text' & lines & Hrun & _ & _ & Htrail & _).
  exists text', lines. split; [exact Hrun|].
  apply Htrail. reflexivity.
Defined.
